(** * pleme-config-manager: runtime configuration read from a global slot

    A shallow embedding of the two classes of the package,
    [Config] (synchronous accessor) and [ConfigLoader] (polling loader),
    together with the small part of the JavaScript run time they rely on:
    the ambient [window] object, [Date.now], thrown errors, promises and
    [setTimeout] timers. *)

From Stdlib Require Import ZArith String List Bool Lia.
From stdpp Require Import base option list gmap strings.
Import ListNotations.

Local Open Scope string_scope.

(** ** Values *)

(** [ConfigRecord = Record<string, string | undefined>]: a key is either not
    an own property, or holds a string, or holds [undefined].  JavaScript
    objects are compared by reference; [obj_id] stands for that reference.
    Properties inherited from [Object.prototype] are not modelled. *)
Record ConfigObject : Type := {
  obj_id : nat;
  props : gmap string (option string)
}.

(** [env[key]]: [None] is [undefined]. *)
Definition prop (o : ConfigObject) (key : string) : option string :=
  mjoin (props o !! key).

(** What [window[configKey]] can hold.  The slot is typed [T extends
    ConfigRecord], so a truthy slot is an object; every falsy JavaScript
    value is kept, since the code tests the slot for truthiness. *)
Inductive Falsy : Type :=
| FUndefined | FNull | FFalse | FZero | FNaN | FEmptyString.

Inductive SlotValue : Type :=
| FalsyValue (f : Falsy)
| ObjectValue (o : ConfigObject).

Definition truthy (v : SlotValue) : bool :=
  match v with
  | FalsyValue _ => false
  | ObjectValue _ => true
  end.

(** Truthiness of a [string | undefined]: [undefined] and [''] are falsy. *)
Definition str_truthy (v : option string) : bool :=
  match v with
  | None => false
  | Some s => negb (String.eqb s "")
  end.

(** ** Errors *)

(** The code throws plain [Error]s told apart by their message; each
    constructor is one message template with the values it interpolates.
    [ReferenceError] is what an unguarded read of an unbound [window]
    raises.  [ErrorKind] is the classification of these failures used in
    the package description. *)
Inductive JsError : Type :=
| ReferenceError
| NonBrowserError (configKey : string)
| SlotUndefinedError (configKey : string)
| RequiredEmptyError (key configKey : string)
| RequiredMissingError (key configKey : string)
| LoadTimeoutError (maxWaitMs : Z) (configKey : string).

Inductive ErrorKind : Type :=
| ConfigSourceUnavailable
| MissingRequiredKey
| ConfigLoadTimeout
| Uncategorised.

Definition error_kind (e : JsError) : ErrorKind :=
  match e with
  | ReferenceError => Uncategorised
  | NonBrowserError _ | SlotUndefinedError _ => ConfigSourceUnavailable
  | RequiredEmptyError _ _ | RequiredMissingError _ _ => MissingRequiredKey
  | LoadTimeoutError _ _ => ConfigLoadTimeout
  end.

(** ** The environment and the effect monad *)

(** One snapshot of what the host provides during a synchronous run:
    the global object ([None] when [typeof window === 'undefined']) and
    the clock in milliseconds, which does not advance within the run. *)
Record World : Type := {
  window : option (gmap string SlotValue);
  now : Z
}.

Inductive Event : Type :=
| SlotRead (key : string)
| ConsoleLog (key : string)
| ConsoleError.

Inductive Completion (A : Type) : Type :=
| Normal (a : A)
| Throw (e : JsError).
Arguments Normal {A} a.
Arguments Throw {A} e.

(** Reader over the world, state [S], exceptions. *)
Definition JS (S A : Type) : Type := World → S → Completion A * S.

Definition js_ret {S A} (a : A) : JS S A := λ _ s, (Normal a, s).

Definition js_bind {S A B} (k : A → JS S B) (m : JS S A) : JS S B :=
  λ w s,
    match m w s with
    | (Normal a, s') => k a w s'
    | (Throw e, s') => (Throw e, s')
    end.

#[global] Instance JS_ret S : MRet (JS S) := @js_ret S.
#[global] Instance JS_bind S : MBind (JS S) := @js_bind S.

Definition throw {S A} (e : JsError) : JS S A := λ _ s, (Throw e, s).

Definition try_catch {S A} (m : JS S A) (h : JsError → JS S A) : JS S A :=
  λ w s,
    match m w s with
    | (Normal a, s') => (Normal a, s')
    | (Throw e, s') => h e w s'
    end.

Definition modify {S} (f : S → S) : JS S unit := λ _ s, (Normal tt, f s).
Definition gets {S A} (f : S → A) : JS S A := λ _ s, (Normal (f s), s).

(** States that record what the code did to the outside. *)
Class Logged (S : Type) : Type := emit : Event → S → S.

#[global] Instance trace_logged : Logged (list Event) := λ e l, (l ++ [e])%list.

(** [typeof window === 'undefined']: never throws. *)
Definition typeof_window_undefined {S} : JS S bool :=
  λ w s, (Normal (bool_decide (window w = None)), s).

(** [window[key]]: throws when [window] is unbound; a property that was
    never assigned reads as [undefined]. *)
Definition window_get {S} `{Logged S} (key : string) : JS S SlotValue :=
  λ w s,
    match window w with
    | None => (Throw ReferenceError, s)
    | Some g => (Normal (default (FalsyValue FUndefined) (g !! key)),
                 emit (SlotRead key) s)
    end.

Definition date_now {S} : JS S Z := λ w s, (Normal (now w), s).

Definition console {S} `{Logged S} (e : Event) : JS S unit :=
  modify (emit e).

(** ** [Config]: the synchronous accessor *)

Module Config.

Record t : Type := { configKey : string }.

(** [constructor(configKey = 'ENV')] *)
Definition new (configKey : option string) : t :=
  {| configKey := default "ENV" configKey |}.

Section Methods.
Context {S : Type} `{Logged S} (this : t).

(** [getEnv()]: the [typeof window] guard, then [if (!windowConfig)]. *)
Definition getEnv : JS S ConfigObject :=
  no_window ← typeof_window_undefined;
  if (no_window : bool) then throw (NonBrowserError (configKey this))
  else
    windowConfig ← window_get (configKey this);
    match windowConfig with
    | FalsyValue _ => throw (SlotUndefinedError (configKey this))
    | ObjectValue env => mret env
    end.

(** [getRequired(key)]: throws when [!value || value === '']. *)
Definition getRequired (key : string) : JS S string :=
  env ← getEnv;
  let value := prop env key in
  match value with
  | None => throw (RequiredEmptyError key (configKey this))
  | Some v =>
      if negb (str_truthy value) || String.eqb v ""
      then throw (RequiredEmptyError key (configKey this))
      else mret v
  end.

(** [getOptional(key)]: [env[key] || undefined]. *)
Definition getOptional (key : string) : JS S (option string) :=
  env ← getEnv;
  let value := prop env key in
  mret (if str_truthy value then value else None).

(** [getBoolean(key, defaultValue = false)]:
    [value === 'true' || defaultValue]. *)
Definition getBoolean (key : string) (defaultValue : option bool)
  : JS S bool :=
  let defaultValue := default false defaultValue in
  value ← getOptional key;
  mret (bool_decide (value = Some "true") || defaultValue).

Definition getAll : JS S ConfigObject := getEnv.

(** [isAvailable()]:
    [typeof window !== 'undefined' && !!window[configKey]]. *)
Definition isAvailable : JS S bool :=
  no_window ← typeof_window_undefined;
  if negb no_window
  then windowConfig ← window_get (configKey this);
       mret (truthy windowConfig)
  else mret false.

End Methods.

End Config.

(** ** [ConfigLoader]: the polling loader *)

Module ConfigLoader.

Record ConfigLoaderOptions : Type := {
  opt_maxWaitMs : option Z;
  opt_pollIntervalMs : option Z;
  opt_configKey : option string
}.

Record GetConfigOptions : Type := {
  required : option bool;
  defaultValue : option string
}.

(** The [readonly] fields.  Durations are whole milliseconds. *)
Record t : Type := {
  maxWaitMs : Z;
  pollIntervalMs : Z;
  configKey : string
}.

(** [constructor(options = {})] with its [??] defaults. *)
Definition new (options : ConfigLoaderOptions) : t :=
  {| maxWaitMs := default 10000%Z (opt_maxWaitMs options);
     pollIntervalMs := default 50%Z (opt_pollIntervalMs options);
     configKey := default "ENV" (opt_configKey options) |}.

Inductive PromiseState : Type :=
| Pending
| Fulfilled (value : ConfigObject)
| Rejected (reason : JsError).

(** A pending [setTimeout(checkConfig, pollIntervalMs)]: the closure
    captured [startTime] and the [resolve]/[reject] pair of one promise. *)
Record Timer : Type := {
  timer_promise : nat;
  timer_start : Z;
  timer_due : Z
}.

(** The mutable fields of one instance ([config], [loadingPromise]) and
    the run-time structures its closures live in: the promises created so
    far (a promise is its index), the timer queue, the trace. *)
Record State : Type := {
  config : option ConfigObject;
  loadingPromise : option nat;
  promises : list PromiseState;
  timers : list Timer;
  log : list Event
}.

Definition initial : State :=
  {| config := None; loadingPromise := None; promises := [];
     timers := []; log := [] |}.

Definition set_config (c : option ConfigObject) (s : State) : State :=
  {| config := c; loadingPromise := loadingPromise s;
     promises := promises s; timers := timers s; log := log s |}.

Definition set_loadingPromise (p : option nat) (s : State) : State :=
  {| config := config s; loadingPromise := p;
     promises := promises s; timers := timers s; log := log s |}.

Definition set_promises (ps : list PromiseState) (s : State) : State :=
  {| config := config s; loadingPromise := loadingPromise s;
     promises := ps; timers := timers s; log := log s |}.

Definition set_timers (ts : list Timer) (s : State) : State :=
  {| config := config s; loadingPromise := loadingPromise s;
     promises := promises s; timers := ts; log := log s |}.

#[global] Instance state_logged : Logged State :=
  λ e s,
    {| config := config s; loadingPromise := loadingPromise s;
       promises := promises s; timers := timers s;
       log := (log s ++ [e])%list |}.

(** Settling a promise that is no longer pending does nothing. *)
Definition settle (p : nat) (st : PromiseState) (s : State) : State :=
  match promises s !! p with
  | Some Pending => set_promises (<[p := st]> (promises s)) s
  | _ => s
  end.

Definition resolve (p : nat) (value : ConfigObject) : JS State unit :=
  modify (settle p (Fulfilled value)).

Definition reject (p : nat) (reason : JsError) : JS State unit :=
  modify (settle p (Rejected reason)).

(** [new Promise(executor)]: the executor runs at once, before the
    constructor returns; an exception it raises rejects the promise. *)
Definition new_promise (executor : nat → JS State unit) : JS State nat :=
  p ← gets (λ s, length (promises s));
  modify (λ s, set_promises (promises s ++ [Pending])%list s);;
  try_catch (executor p) (reject p);;
  mret p.

(** [setTimeout(checkConfig, delay)]; a negative delay counts as 0. *)
Definition setTimeout (p : nat) (startTime delay : Z) : JS State unit :=
  λ w s,
    let tm := {| timer_promise := p; timer_start := startTime;
                 timer_due := (now w + Z.max 0 delay)%Z |} in
    (Normal tt, set_timers (timers s ++ [tm])%list s).

(** What a call of the [async] method [loadConfig] hands to [await]:
    a promise already fulfilled with the cache, or one that follows the
    promise [p]. *)
Inductive LoadResult : Type :=
| Cached (value : ConfigObject)
| InFlight (p : nat).

Section Methods.
Context (this : t).

(** The closure [checkConfig] of the promise [p]: slot first, then
    the deadline, else [setTimeout(checkConfig, pollIntervalMs)]. *)
Definition checkConfig (startTime : Z) (p : nat) : JS State unit :=
  windowConfig ← window_get (configKey this);
  match windowConfig with
  | ObjectValue c =>
      console (ConsoleLog (configKey this));;
      modify (set_config (Some c));;
      modify (set_loadingPromise None);;
      resolve p c
  | FalsyValue _ =>
      t_now ← date_now;
      let elapsed := (t_now - startTime)%Z in
      if (maxWaitMs this <=? elapsed)%Z
      then
        console ConsoleError;;
        modify (set_loadingPromise None);;
        reject p (LoadTimeoutError (maxWaitMs this) (configKey this))
      else setTimeout p startTime (pollIntervalMs this)
  end.

(** [loadConfig()]: the cache, else the promise in flight, else a new
    promise whose executor records [startTime] and runs the first check;
    the assignment to [this.loadingPromise] follows the executor. *)
Definition loadConfig : JS State LoadResult :=
  cached ← gets config;
  match cached with
  | Some c => mret (Cached c)
  | None =>
      in_flight ← gets loadingPromise;
      match in_flight with
      | Some p => mret (InFlight p)
      | None =>
          p ← new_promise (λ p,
                 startTime ← date_now;
                 checkConfig startTime p);
          modify (set_loadingPromise (Some p));;
          mret (InFlight p)
      end
  end.

(** [await]: the settled outcome of what [loadConfig] returned, if
    any yet. *)
Definition awaited (r : LoadResult) (s : State)
  : option (Completion ConfigObject) :=
  match r with
  | Cached c => Some (Normal c)
  | InFlight p =>
      match promises s !! p with
      | Some (Fulfilled c) => Some (Normal c)
      | Some (Rejected e) => Some (Throw e)
      | _ => None
      end
  end.

Definition await {A} (outcome : Completion A) : JS State A :=
  λ _ s, (outcome, s).

Definition opt_required (options : option GetConfigOptions) : bool :=
  default false (options ≫= required).

Definition opt_default (options : option GetConfigOptions)
  : option string :=
  options ≫= defaultValue.

(** An [async] method runs up to its first [await] when it is called
    and the rest when the awaited promise is settled.  [get] and
    [getAll] await [this.loadConfig()], which therefore runs at the
    call; [awaiting] is what it returned and [resume] the rest of the
    body, given the settled outcome. *)
Record Suspended (A : Type) : Type := {
  awaiting : LoadResult;
  resume : Completion ConfigObject → JS State A
}.

(** [get] after the [await]: [options?.required && (value ===
    undefined || value === '')] throws; otherwise
    [value !== undefined ? value : options?.defaultValue]. *)
Definition get_resume (key : string) (options : option GetConfigOptions)
    (loaded : Completion ConfigObject) : JS State (option string) :=
  c ← await loaded;
  let value := prop c key in
  if opt_required options
     && (bool_decide (value = None) || bool_decide (value = Some ""))
  then throw (RequiredMissingError key (configKey this))
  else mret (match value with
             | Some v => Some v
             | None => opt_default options
             end).

Definition get (key : string) (options : option GetConfigOptions)
  : JS State (Suspended (option string)) :=
  r ← loadConfig;
  mret {| awaiting := r; resume := get_resume key options |}.

Definition getAll_resume (loaded : Completion ConfigObject)
  : JS State ConfigObject :=
  await loaded.

Definition getAll : JS State (Suspended ConfigObject) :=
  r ← loadConfig;
  mret {| awaiting := r; resume := getAll_resume |}.

Definition isLoaded (s : State) : bool :=
  match config s with
  | Some _ => true
  | None => false
  end.

(** [reload()]: both fields to [null]; no timer is cancelled. *)
Definition reload : JS State unit :=
  modify (set_config None);;
  modify (set_loadingPromise None).

(** The event loop runs the [n]-th queued timer once it is due.  An
    exception escaping the callback is reported by the host and
    leaves the state as the callback left it. *)
Definition fire (n : nat) (w : World) (s : State) : State :=
  match timers s !! n with
  | Some tm =>
      if (timer_due tm <=? now w)%Z
      then snd (checkConfig (timer_start tm) (timer_promise tm) w
                  (set_timers (delete n (timers s)) s))
      else s
  | None => s
  end.

End Methods.

Arguments awaiting {A} _.
Arguments resume {A} _ _.

End ConfigLoader.

(** ** Schedules *)

(** What the slot [key] of the global object reads as: [None] when there
    is no global object at all. *)
Definition slot_of (w : World) (key : string) : option SlotValue :=
  (λ g, default (FalsyValue FUndefined) (g !! key)) <$> window w.

(** One turn of the event loop as far as a loader is concerned: some
    code calls [get] or [getAll], whose effect at the call is that of
    [loadConfig], or the host runs a queued timer.  Each turn sees its own
    world. *)
Inductive Action : Type :=
| Call
| Fire (n : nat).

Definition step (this : ConfigLoader.t) (a : Action) (w : World)
    (s : ConfigLoader.State) : option ConfigLoader.LoadResult * ConfigLoader.State :=
  match a with
  | Call =>
      match ConfigLoader.loadConfig this w s with
      | (Normal r, s') => (Some r, s')
      | (Throw _, s') => (None, s')
      end
  | Fire n => (None, ConfigLoader.fire this n w s)
  end.

(** Runs a schedule and collects what each call was handed. *)
Fixpoint run (this : ConfigLoader.t) (sched : list (Action * World))
    (s : ConfigLoader.State) : list ConfigLoader.LoadResult * ConfigLoader.State :=
  match sched with
  | [] => ([], s)
  | (a, w) :: rest =>
      let '(r, s') := step this a w s in
      let '(rs, s'') := run this rest s' in
      (match r with Some x => x :: rs | None => rs end, s'')
  end.

Definition is_call (aw : Action * World) : bool :=
  match fst aw with
  | Call => true
  | Fire _ => false
  end.

Definition calls (sched : list (Action * World)) : nat :=
  length (List.filter is_call sched).

(** A turn during which a wait begun at [startTime] goes on: a timer
    that runs finds the global object, a falsy slot, and the deadline not
    reached.  Calls are unconstrained. *)
Definition keeps_waiting (this : ConfigLoader.t) (startTime : Z)
    (aw : Action * World) : Prop :=
  match fst aw with
  | Call => True
  | Fire _ =>
      (∃ f, slot_of (snd aw) (ConfigLoader.configKey this)
              = Some (FalsyValue f))
      ∧ (now (snd aw) - startTime < ConfigLoader.maxWaitMs this)%Z
  end.

(** The Waiting state of the loader: no cache, the in-flight promise [p]
    still pending, and exactly one queued check, the one of [p]. *)
Definition waiting (p : nat) (startTime : Z) (s : ConfigLoader.State) : Prop :=
  ConfigLoader.config s = None
  ∧ ConfigLoader.loadingPromise s = Some p
  ∧ ConfigLoader.promises s !! p = Some ConfigLoader.Pending
  ∧ ∃ due, ConfigLoader.timers s =
             [ {| ConfigLoader.timer_promise := p;
                  ConfigLoader.timer_start := startTime;
                  ConfigLoader.timer_due := due |} ].

(** ** Schedules with resets, and a polling host *)

(** A turn that may also be a [reload()]. *)
Inductive Op : Type :=
| OpCall
| OpFire (n : nat)
| OpReload.

Definition step_op (this : ConfigLoader.t) (o : Op) (w : World)
    (s : ConfigLoader.State) : ConfigLoader.State :=
  match o with
  | OpCall => snd (ConfigLoader.loadConfig this w s)
  | OpFire n => ConfigLoader.fire this n w s
  | OpReload => snd (ConfigLoader.reload w s)
  end.

Fixpoint run_ops (this : ConfigLoader.t) (ops : list (Op * World))
    (s : ConfigLoader.State) : ConfigLoader.State :=
  match ops with
  | [] => s
  | (o, w) :: rest => run_ops this rest (step_op this o w s)
  end.

(** The host runs the first queued check at the very time it is due, up
    to [fuel] times, while the global object stays [g]. *)
Fixpoint poll (this : ConfigLoader.t) (g : gmap string SlotValue)
    (fuel : nat) (s : ConfigLoader.State) : ConfigLoader.State :=
  match fuel with
  | O => s
  | S k =>
      match ConfigLoader.timers s with
      | tm :: _ =>
          poll this g k
            (ConfigLoader.fire this 0
               {| window := Some g; now := ConfigLoader.timer_due tm |} s)
      | [] => s
      end
  end.

(** At most one check is queued, and a queued check belongs to the
    promise in flight, which is pending, on an instance without cache. *)
Definition single_poll (s : ConfigLoader.State) : Prop :=
  ConfigLoader.timers s = []
  ∨ ∃ tm, ConfigLoader.timers s = [tm]
          ∧ ConfigLoader.config s = None
          ∧ ConfigLoader.loadingPromise s = Some (ConfigLoader.timer_promise tm)
          ∧ ConfigLoader.promises s !! ConfigLoader.timer_promise tm
            = Some ConfigLoader.Pending.

(** Every promise settled in [s] is settled the same way in [s']. *)
Definition settled_kept (s s' : ConfigLoader.State) : Prop :=
  ∀ p st, ConfigLoader.promises s !! p = Some st →
          st ≠ ConfigLoader.Pending →
          ConfigLoader.promises s' !! p = Some st.

(** ** Sample environments *)

Definition sample_env : ConfigObject :=
  {| obj_id := 1;
     props := {[ "API_URL" := Some "https://x"; "DEBUG" := Some "true";
                 "FLAG" := Some "false"; "EMPTY" := Some "" ]} |}.

Definition world_without_window (t : Z) : World :=
  {| window := None; now := t |}.

Definition world_without_slot (t : Z) : World :=
  {| window := Some ∅; now := t |}.

Definition world_with_slot (t : Z) : World :=
  {| window := Some {[ "ENV" := ObjectValue sample_env ]}; now := t |}.

(** A second configuration object, written to the slot later on. *)
Definition other_env : ConfigObject :=
  {| obj_id := 2; props := {[ "API_URL" := Some "https://y" ]} |}.

Definition world_with_other_slot (t : Z) : World :=
  {| window := Some {[ "ENV" := ObjectValue other_env ]}; now := t |}.

Definition default_config : Config.t := Config.new None.

Definition default_loader : ConfigLoader.t :=
  ConfigLoader.new
    {| ConfigLoader.opt_maxWaitMs := None;
       ConfigLoader.opt_pollIntervalMs := None;
       ConfigLoader.opt_configKey := None |}.

Definition slow_loader : ConfigLoader.t :=
  ConfigLoader.new
    {| ConfigLoader.opt_maxWaitMs := Some 100%Z;
       ConfigLoader.opt_pollIntervalMs := Some 60%Z;
       ConfigLoader.opt_configKey := None |}.

Definition impatient_loader : ConfigLoader.t :=
  ConfigLoader.new
    {| ConfigLoader.opt_maxWaitMs := Some 0%Z;
       ConfigLoader.opt_pollIntervalMs := None;
       ConfigLoader.opt_configKey := None |}.

(** * Properties *)

#[global] Arguments ConfigLoader.checkConfig : simpl never.
#[global] Arguments ConfigLoader.loadConfig : simpl never.
#[global] Arguments ConfigLoader.settle : simpl never.
#[global] Arguments slot_of : simpl never.

Ltac js_unfold :=
  unfold mbind, mret, JS_bind, JS_ret, js_bind, js_ret, throw, try_catch,
    modify, gets, console, date_now, typeof_window_undefined, window_get in *;
  cbv beta in *.

Lemma str_truthy_false (v : option string) :
  str_truthy v = false ↔ v = None ∨ v = Some "".
Proof.
  destruct v as [s|]; simpl.
  - destruct (String.eqb_spec s "") as [->|Hne]; simpl; split; intros HH;
      try tauto; try discriminate.
    destruct HH as [HH|HH]; [discriminate | congruence].
  - tauto.
Qed.

Section ConfigProperties.
Variable this : Config.t.
Let K := Config.configKey this.

(** [getEnv] by cases on the environment: the error raised, the object
    returned, and the reads appended to the trace. *)
Lemma getEnv_cases (w : World) (tr : list Event) :
  Config.getEnv this w tr =
    match slot_of w K with
    | None => (Throw (NonBrowserError K), tr)
    | Some (FalsyValue _) =>
        (Throw (SlotUndefinedError K), (tr ++ [SlotRead K])%list)
    | Some (ObjectValue o) => (Normal o, (tr ++ [SlotRead K])%list)
    end.
Proof.
  unfold Config.getEnv, slot_of. js_unfold.
  destruct w as [[g|] t]; cbn; [|reflexivity].
  destruct (default _ (g !! _)); reflexivity.
Qed.

Lemma getRequired_cases (key : string) (w : World) (tr : list Event) :
  Config.getRequired this key w tr =
    match slot_of w K with
    | None => (Throw (NonBrowserError K), tr)
    | Some (FalsyValue _) =>
        (Throw (SlotUndefinedError K), (tr ++ [SlotRead K])%list)
    | Some (ObjectValue o) =>
        (if str_truthy (prop o key)
         then Normal (default "" (prop o key))
         else Throw (RequiredEmptyError key K),
         (tr ++ [SlotRead K])%list)
    end.
Proof.
  unfold Config.getRequired. unfold mbind, JS_bind, js_bind.
  rewrite getEnv_cases.
  destruct (slot_of w K) as [[f|o]|]; try reflexivity.
  destruct (prop o key) as [v|]; simpl; [|reflexivity].
  destruct (String.eqb v ""); reflexivity.
Qed.

Lemma getOptional_cases (key : string) (w : World) (tr : list Event) :
  Config.getOptional this key w tr =
    match slot_of w K with
    | None => (Throw (NonBrowserError K), tr)
    | Some (FalsyValue _) =>
        (Throw (SlotUndefinedError K), (tr ++ [SlotRead K])%list)
    | Some (ObjectValue o) =>
        (Normal (if str_truthy (prop o key) then prop o key else None),
         (tr ++ [SlotRead K])%list)
    end.
Proof.
  unfold Config.getOptional. unfold mbind, JS_bind, js_bind.
  rewrite getEnv_cases.
  destruct (slot_of w K) as [[f|o]|]; reflexivity.
Qed.

End ConfigProperties.

(** ** The synchronous accessor *)

Section ConfigClaims.
Variable this : Config.t.
Let K := Config.configKey this.

(** C7. [getRequired(key)] fails with a ConfigSourceUnavailable error
    exactly when there is no global object or the slot is falsy; it fails
    with a MissingRequiredKey error exactly when the slot holds an object
    whose value for [key] is [undefined] or the empty string; it returns
    [v] exactly when the slot holds an object whose value for [key] is the
    non-empty string [v].  Nothing is cached: the outcome is that of the
    current world whatever happened before, and each call in a world with
    a global object reads the slot once more. *)
Theorem getRequired_outcome (key : string) (w : World) (tr : list Event) :
  let r := fst (Config.getRequired this key w tr) in
  ((∃ e, r = Throw e ∧ error_kind e = ConfigSourceUnavailable)
     ↔ (window w = None ∨ ∃ f, slot_of w K = Some (FalsyValue f)))
  ∧ ((∃ e, r = Throw e ∧ error_kind e = MissingRequiredKey)
     ↔ (∃ o, slot_of w K = Some (ObjectValue o)
             ∧ (prop o key = None ∨ prop o key = Some "")))
  ∧ (∀ v, r = Normal v
     ↔ (∃ o, slot_of w K = Some (ObjectValue o)
             ∧ prop o key = Some v ∧ v ≠ ""))
  ∧ (∀ tr' : list Event, fst (Config.getRequired this key w tr') = r)
  ∧ snd (Config.getRequired this key w tr)
    = (tr ++ match window w with
             | Some _ => [SlotRead K]
             | None => []
             end)%list.
Proof.
  cbv zeta. repeat split.
  - intros (e & Hr & Hk). rewrite getRequired_cases in Hr. fold K in Hr.
    unfold slot_of in *.
    destruct (window w) as [g|]; simpl in *; [right | by left].
    destruct (default _ (g !! K)) as [f|o]; [by eauto|].
    simpl in Hr. destruct (str_truthy (prop o key)); [discriminate|].
    injection Hr as <-. discriminate.
  - intros [Hw | (f & Hf)]; rewrite getRequired_cases; fold K.
    + unfold slot_of. rewrite Hw. simpl. eauto.
    + rewrite Hf. simpl. eauto.
  - intros (e & Hr & Hk). rewrite getRequired_cases in Hr. fold K in Hr.
    destruct (slot_of w K) as [[f|o]|]; simpl in Hr;
      try (injection Hr as <-; discriminate).
    exists o. split; [done|].
    destruct (str_truthy (prop o key)) eqn:Ht; [discriminate|].
    by apply str_truthy_false.
  - intros (o & Hs & Hv). rewrite getRequired_cases. fold K.
    rewrite Hs. simpl.
    apply str_truthy_false in Hv. rewrite Hv. eauto.
  - intros Hr. rewrite getRequired_cases in Hr. fold K in Hr.
    destruct (slot_of w K) as [[f|o]|]; simpl in Hr; try discriminate.
    exists o. split; [done|].
    destruct (prop o key) as [s|] eqn:Hp; simpl in Hr; [|discriminate].
    destruct (String.eqb_spec s "") as [->|Hne]; simpl in Hr;
      [discriminate|].
    injection Hr as <-. done.
  - intros (o & Hs & Hp & Hne). rewrite getRequired_cases. fold K.
    rewrite Hs, Hp. simpl.
    destruct (String.eqb_spec v "") as [->|_]; [done|reflexivity].
  - intros tr'. rewrite !getRequired_cases.
    destruct (slot_of w (Config.configKey this)) as [[f|o]|]; reflexivity.
  - rewrite getRequired_cases. unfold slot_of.
    destruct (window w) as [g|]; simpl.
    + destruct (default _ (g !! _)); reflexivity.
    + by rewrite app_nil_r.
Qed.

(** C8. [isAvailable()] completes normally in every environment, also
    one without a global object, and its result is [true] exactly when a
    global object exists and the slot holds a truthy value. *)
Theorem isAvailable_total (w : World) (tr : list Event) :
  ∃ b, fst (Config.isAvailable this w tr) = Normal b
       ∧ (b = true
          ↔ ∃ g, window w = Some g
                 ∧ truthy (default (FalsyValue FUndefined) (g !! K)) = true).
Proof.
  unfold Config.isAvailable. js_unfold.
  destruct w as [[g|] t]; cbn.
  - eexists; split; [reflexivity|]. split.
    + intros Ht. exists g. by split.
    + intros (g' & [= <-] & Ht). done.
  - exists false. split; [reflexivity|]. split; [discriminate|].
    intros (g & Hg & _). discriminate.
Qed.

(** C1, amended.  When the slot resolves to an object, [getBoolean(key,
    defaultValue)] returns [true] if the value of [key] is exactly
    ["true"] and [defaultValue] (false when omitted) for every other
    value; so with a false default the result is [true] exactly when the
    value is ["true"], and with a true default it is [true] always. *)
Theorem getBoolean_default (key : string) (defaultValue : option bool)
    (w : World) (tr : list Event) (o : ConfigObject) :
  slot_of w K = Some (ObjectValue o) →
  let r := fst (Config.getBoolean this key defaultValue w tr) in
  (prop o key = Some "true" → r = Normal true)
  ∧ (prop o key ≠ Some "true" → r = Normal (default false defaultValue))
  ∧ (default false defaultValue = false →
     (r = Normal true ↔ prop o key = Some "true"))
  ∧ (default false defaultValue = true → r = Normal true).
Proof.
  intros Hs. cbv zeta.
  assert (Hr : fst (Config.getBoolean this key defaultValue w tr)
               = Normal (bool_decide (prop o key = Some "true")
                         || default false defaultValue)).
  { unfold Config.getBoolean. unfold mbind, JS_bind, js_bind.
    rewrite getOptional_cases. fold K. rewrite Hs. simpl. f_equal. f_equal.
    destruct (prop o key) as [v|] eqn:Hp; simpl; [|done].
    destruct (String.eqb_spec v "") as [->|_]; simpl; done. }
  rewrite Hr. repeat split.
  - intros Hp. by rewrite bool_decide_eq_true_2.
  - intros Hp. by rewrite bool_decide_eq_false_2.
  - rewrite H. rewrite orb_false_r. intros [= Hb].
    by apply bool_decide_eq_true_1 in Hb.
  - intros Hp. by rewrite bool_decide_eq_true_2.
  - intros ->. by rewrite orb_true_r.
Qed.

End ConfigClaims.

(** C1 as stated fails: with [defaultValue = true] and the value
    ["false"], the call returns [true] although the value read for the
    key is not ["true"]. *)
Lemma getBoolean_true_without_true_value :
  fst (Config.getBoolean default_config "FLAG" (Some true)
         (world_with_slot 0) [])
    = Normal true
  ∧ fst (Config.getOptional default_config "FLAG" (world_with_slot 0) [])
    = Normal (Some "false").
Proof. split; vm_compute; reflexivity. Qed.

Lemma getBoolean_default_witness :
  slot_of (world_with_slot 0) (Config.configKey default_config)
    = Some (ObjectValue sample_env)
  ∧ fst (Config.getBoolean default_config "DEBUG" None (world_with_slot 0) [])
    = Normal true.
Proof.
  split; [reflexivity|].
  destruct (getBoolean_default default_config "DEBUG" None
              (world_with_slot 0) [] sample_env eq_refl) as (Htrue & _).
  apply Htrue. reflexivity.
Defined.

(** The scenario of the package description: slot
    [{API_URL: "https://x", DEBUG: "true", ...}]. *)
Example getRequired_api_url :
  fst (Config.getRequired default_config "API_URL" (world_with_slot 0) [])
  = Normal "https://x".
Proof. vm_compute. reflexivity. Qed.

Example getBoolean_debug :
  fst (Config.getBoolean default_config "DEBUG" None (world_with_slot 0) [])
  = Normal true.
Proof. vm_compute. reflexivity. Qed.

Example getOptional_missing :
  fst (Config.getOptional default_config "MISSING" (world_with_slot 0) [])
  = Normal None.
Proof. vm_compute. reflexivity. Qed.

Example getRequired_without_window :
  Config.getRequired default_config "API_URL" (world_without_window 0) []
  = (Throw (NonBrowserError "ENV"), []).
Proof. vm_compute. reflexivity. Qed.

(** ** The polling loader *)

Section LoaderLemmas.
Import ConfigLoader.
Variable this : ConfigLoader.t.
Let K := configKey this.

(** One run of [checkConfig], by cases on what the world shows. *)
Lemma checkConfig_cases (startTime : Z) (p : nat) (w : World) (s : State) :
  checkConfig this startTime p w s =
    match slot_of w K with
    | None => (Throw ReferenceError, s)
    | Some (ObjectValue c) =>
        (Normal tt,
         settle p (Fulfilled c)
           (set_loadingPromise None
              (set_config (Some c)
                 (emit (ConsoleLog K) (emit (SlotRead K) s)))))
    | Some (FalsyValue _) =>
        if (maxWaitMs this <=? now w - startTime)%Z
        then (Normal tt,
              settle p (Rejected (LoadTimeoutError (maxWaitMs this) K))
                (set_loadingPromise None
                   (emit ConsoleError (emit (SlotRead K) s))))
        else (Normal tt,
              set_timers
                (timers (emit (SlotRead K) s)
                 ++ [ {| timer_promise := p; timer_start := startTime;
                         timer_due := (now w + Z.max 0 (pollIntervalMs this))%Z |} ])%list
                (emit (SlotRead K) s))
    end.
Proof.
  unfold checkConfig, resolve, reject, setTimeout, slot_of. js_unfold.
  destruct w as [[g|] t]; cbn; [|reflexivity].
  destruct (default _ (g !! _)) as [f|c]; cbn; [|reflexivity].
  destruct (maxWaitMs this <=? t - startTime)%Z; reflexivity.
Qed.

Lemma loadConfig_cached (c : ConfigObject) (w : World) (s : State) :
  config s = Some c → loadConfig this w s = (Normal (Cached c), s).
Proof.
  intros Hc. unfold loadConfig. js_unfold. by rewrite Hc.
Qed.

Lemma loadConfig_in_flight (p : nat) (w : World) (s : State) :
  config s = None → loadingPromise s = Some p →
  loadConfig this w s = (Normal (InFlight p), s).
Proof.
  intros Hc Hp. unfold loadConfig. js_unfold. by rewrite Hc, Hp.
Qed.

(** A call in the Idle state: a promise is created, the first check runs
    inside its executor, and only then is the promise stored in
    [loadingPromise]. *)
Lemma loadConfig_idle (w : World) (s : State) :
  config s = None → loadingPromise s = None →
  loadConfig this w s =
    let p := length (promises s) in
    let s1 := set_promises (promises s ++ [Pending])%list s in
    let s2 := match checkConfig this (now w) p w s1 with
              | (Normal _, s') => s'
              | (Throw e, s') => settle p (Rejected e) s'
              end in
    (Normal (InFlight p), set_loadingPromise (Some p) s2).
Proof.
  intros Hc Hp. unfold loadConfig, new_promise, reject. js_unfold.
  rewrite Hc, Hp. cbn.
  destruct (checkConfig this (now w) (length (promises s)) w _)
    as [[[]|e] s']; reflexivity.
Qed.

Lemma loadConfig_never_throws (w : World) (s : State) :
  ∃ r, fst (loadConfig this w s) = Normal r.
Proof.
  destruct (config s) as [c|] eqn:Hc.
  { rewrite (loadConfig_cached c); eauto. }
  destruct (loadingPromise s) as [p|] eqn:Hp.
  { rewrite (loadConfig_in_flight p); eauto. }
  rewrite loadConfig_idle by done. simpl. eauto.
Qed.

Lemma settle_config (p : nat) (st : PromiseState) (s : State) :
  config (settle p st s) = config s.
Proof. unfold settle. by destruct (promises s !! p) as [[]|]. Qed.

Lemma settle_loadingPromise (p : nat) (st : PromiseState) (s : State) :
  loadingPromise (settle p st s) = loadingPromise s.
Proof. unfold settle. by destruct (promises s !! p) as [[]|]. Qed.

Lemma settle_timers (p : nat) (st : PromiseState) (s : State) :
  timers (settle p st s) = timers s.
Proof. unfold settle. by destruct (promises s !! p) as [[]|]. Qed.

Lemma settle_log (p : nat) (st : PromiseState) (s : State) :
  log (settle p st s) = log s.
Proof. unfold settle. by destruct (promises s !! p) as [[]|]. Qed.

Lemma settle_length (p : nat) (st : PromiseState) (s : State) :
  length (promises (settle p st s)) = length (promises s).
Proof.
  unfold settle. destruct (promises s !! p) as [[]|]; simpl; try done.
  by rewrite length_insert.
Qed.

Lemma settle_pending (p : nat) (st : PromiseState) (s : State) :
  promises s !! p = Some Pending → promises (settle p st s) !! p = Some st.
Proof.
  intros Hp. unfold settle. rewrite Hp. simpl.
  apply list_lookup_insert_eq. by eapply lookup_lt_Some.
Qed.

Lemma settle_other (p q : nat) (st : PromiseState) (s : State) :
  q ≠ p → promises (settle p st s) !! q = promises s !! q.
Proof.
  intros Hq. unfold settle. destruct (promises s !! p) as [[]|]; simpl;
    try done.
  by apply list_lookup_insert_ne.
Qed.

(** A promise is settled at most once. *)
Lemma settle_settled (p : nat) (st : PromiseState) (s : State) :
  promises s !! p ≠ Some Pending → settle p st s = s.
Proof.
  intros Hp. unfold settle. destruct (promises s !! p) as [[]|]; done.
Qed.

(** What a call of [get] or [getAll] does at the call is [loadConfig]. *)
Lemma get_call (key : string) (options : option GetConfigOptions)
    (w : World) (s : State) (r : LoadResult) (s' : State) :
  loadConfig this w s = (Normal r, s') →
  get this key options w s
  = (Normal {| awaiting := r; resume := get_resume this key options |}, s').
Proof. intros Hl. unfold get. js_unfold. by rewrite Hl. Qed.

Lemma getAll_call (w : World) (s : State) (r : LoadResult) (s' : State) :
  loadConfig this w s = (Normal r, s') →
  getAll this w s
  = (Normal {| awaiting := r; resume := getAll_resume |}, s').
Proof. intros Hl. unfold getAll. js_unfold. by rewrite Hl. Qed.

(** Calls alone never leave the Loaded state nor touch the state. *)
Lemma run_calls_cached (c : ConfigObject) (s : State)
    (sched : list (Action * World)) :
  config s = Some c →
  Forall (λ aw, is_call aw = true) sched →
  run this sched s = (repeat (Cached c) (length sched), s).
Proof.
  intros Hc. induction 1 as [|[a w'] sched Ha _ IH]; [reflexivity|].
  destruct a; [|discriminate]. simpl.
  rewrite (loadConfig_cached c) by done. by rewrite IH.
Qed.

Lemma run_unfold (a : Action) (w : World) (sched : list (Action * World))
    (s : State) :
  run this ((a, w) :: sched) s
  = (match fst (step this a w s) with
     | Some x => x :: fst (run this sched (snd (step this a w s)))
     | None => fst (run this sched (snd (step this a w s)))
     end,
     snd (run this sched (snd (step this a w s)))).
Proof.
  cbn [run]. destruct (step this a w s) as [r s']. cbn [fst snd].
  by destruct (run this sched s') as [rs s''].
Qed.

(** With the cache filled and the queue empty no turn changes anything. *)
Lemma run_without_timers_stable (c : ConfigObject) (s : State)
    (sched : list (Action * World)) :
  config s = Some c → timers s = [] →
  run this sched s = (repeat (Cached c) (calls sched), s).
Proof.
  intros Hc Ht. induction sched as [|[a w] sched IH]; [reflexivity|].
  rewrite run_unfold. destruct a as [|n]; cbn [step].
  - rewrite (loadConfig_cached c) by done. cbn [fst snd]. by rewrite IH.
  - unfold fire. rewrite Ht, lookup_nil. cbn [fst snd]. by rewrite IH.
Qed.

(** No turn empties the cache: a check only ever stores an object. *)
Lemma step_keeps_loaded (a : Action) (w : World) (s : State) :
  isLoaded s = true → isLoaded (snd (step this a w s)) = true.
Proof.
  unfold isLoaded. destruct (config s) as [c|] eqn:Hc; [intros _|done].
  destruct a as [|n]; cbn [step snd].
  - rewrite (loadConfig_cached c) by done. cbn. by rewrite Hc.
  - unfold fire. destruct (timers s !! n) as [tm|]; [|by rewrite Hc].
    destruct (timer_due tm <=? now w)%Z; [|by rewrite Hc].
    rewrite checkConfig_cases.
    destruct (slot_of w K) as [[f|c']|]; cbn [snd].
    + destruct (maxWaitMs this <=? now w - timer_start tm)%Z; cbn [snd].
      * rewrite settle_config. cbn. by rewrite Hc.
      * cbn. by rewrite Hc.
    + rewrite settle_config. by cbn.
    + cbn. by rewrite Hc.
Qed.

Lemma run_keeps_loaded (sched : list (Action * World)) (s : State) :
  isLoaded s = true → isLoaded (snd (run this sched s)) = true.
Proof.
  revert s. induction sched as [|[a w] sched IH]; intros s Hl; [done|].
  rewrite run_unfold. cbn [snd]. apply IH. by apply step_keeps_loaded.
Qed.

End LoaderLemmas.

Section LoaderClaims.
Import ConfigLoader.
Variable this : ConfigLoader.t.
Let K := configKey this.

(** C2, amended.  Once the configuration [c] is loaded, [get(key,
    options)] returns the value of [key] whenever it is a non-empty
    string; when the value is [undefined] and [required] is not set it
    returns [options.defaultValue] if given and [undefined] otherwise;
    when the value is the empty string and [required] is not set it
    returns the empty string itself, whatever the default; when the value
    is [undefined] or empty and [required] is true it fails with a
    MissingRequiredKey error. *)
Theorem get_value_or_default (key : string)
    (options : option GetConfigOptions) (c : ConfigObject) (w : World)
    (s : State) :
  let r := fst (get_resume this key options (Normal c) w s) in
  (∀ v, prop c key = Some v → v ≠ "" → r = Normal (Some v))
  ∧ (prop c key = None → opt_required options = false →
     r = Normal (opt_default options))
  ∧ (prop c key = Some "" → opt_required options = false →
     r = Normal (Some ""))
  ∧ (prop c key = None ∨ prop c key = Some "" →
     opt_required options = true →
     r = Throw (RequiredMissingError key K)
     ∧ error_kind (RequiredMissingError key K) = MissingRequiredKey).
Proof.
  cbv zeta. unfold get_resume, await. js_unfold.
  split; [|split; [|split]].
  - intros v Hp Hne. rewrite Hp.
    rewrite (bool_decide_eq_false_2 (Some v = None)) by done.
    rewrite (bool_decide_eq_false_2 (Some v = Some "")) by congruence.
    by rewrite andb_false_r.
  - intros Hp Hr. by rewrite Hp, Hr.
  - intros Hp Hr. by rewrite Hp, Hr.
  - intros Hp Hr. rewrite Hr. destruct Hp as [-> | ->]; by split.
Qed.

(** C10.  The part of [get] that runs after the load never writes the
    instance: when it fails on a required key, the failure is a
    MissingRequiredKey error and the state is the one it found, so the
    cache is still populated, [isLoaded()] is true, and every later call
    is served from the cache without a new promise, timer or slot read. *)
Theorem required_failure_keeps_state (key : string)
    (options : option GetConfigOptions) (c : ConfigObject) (w : World)
    (s : State) (e : JsError) :
  config s = Some c →
  fst (get_resume this key options (Normal c) w s) = Throw e →
  let s' := snd (get_resume this key options (Normal c) w s) in
  error_kind e = MissingRequiredKey
  ∧ s' = s
  ∧ isLoaded s' = true
  ∧ (∀ key' options' w',
       get this key' options' w' s'
       = (Normal {| awaiting := Cached c;
                    resume := get_resume this key' options' |}, s'))
  ∧ (∀ w', getAll this w' s'
           = (Normal {| awaiting := Cached c; resume := getAll_resume |},
              s'))
  ∧ (∀ sched, Forall (λ aw, is_call aw = true) sched →
       run this sched s' = (repeat (Cached c) (length sched), s')).
Proof.
  intros Hc Hr. cbv zeta.
  assert (Hs : snd (get_resume this key options (Normal c) w s) = s).
  { unfold get_resume, await. js_unfold.
    destruct (opt_required options && _); reflexivity. }
  rewrite Hs. repeat split.
  - revert Hr. unfold get_resume, await. js_unfold.
    destruct (opt_required options && _); simpl; [|discriminate].
    by intros [= <-].
  - unfold isLoaded. by rewrite Hc.
  - intros key' options' w'. apply get_call. by apply loadConfig_cached.
  - intros w'. apply getAll_call. by apply loadConfig_cached.
  - intros sched Hcalls. by apply run_calls_cached.
Qed.

End LoaderClaims.

(** C2 as stated fails: for a key holding the empty string, a call that
    is not [required] and gives a default returns the empty string, not
    the default. *)
Lemma get_empty_value_ignores_default :
  prop sample_env "EMPTY" = Some ""
  ∧ fst (ConfigLoader.get_resume default_loader "EMPTY"
           (Some {| ConfigLoader.required := None;
                    ConfigLoader.defaultValue := Some "fallback" |})
           (Normal sample_env) (world_with_slot 0) ConfigLoader.initial)
    = Normal (Some "").
Proof. split; vm_compute; reflexivity. Qed.

Lemma required_failure_keeps_state_witness :
  let s := snd (ConfigLoader.loadConfig default_loader (world_with_slot 0)
                  ConfigLoader.initial) in
  let s' := snd (ConfigLoader.get_resume default_loader "MISSING"
                   (Some {| ConfigLoader.required := Some true;
                            ConfigLoader.defaultValue := None |})
                   (Normal sample_env) (world_with_slot 1) s) in
  s' = s ∧ ConfigLoader.isLoaded s' = true.
Proof.
  cbv zeta.
  destruct (required_failure_keeps_state default_loader "MISSING"
              (Some {| ConfigLoader.required := Some true;
                       ConfigLoader.defaultValue := None |})
              sample_env (world_with_slot 1)
              (snd (ConfigLoader.loadConfig default_loader (world_with_slot 0)
                      ConfigLoader.initial))
              (RequiredMissingError "MISSING" "ENV") eq_refl eq_refl)
    as (_ & Hs & Hl & _).
  split; assumption.
Defined.

Section LoaderStateClaims.
Import ConfigLoader.
Variable this : ConfigLoader.t.
Let K := configKey this.

(** C3, amended.  Once the cache holds [c], every [get]/[getAll], in
    any world, is handed that same object and leaves the whole state as it
    was (so no slot read is added to the trace, no promise and no timer
    is created); [getAll] then returns [c] itself.  [reload()] empties the
    cache, and the call that follows it reads the slot again.  If no
    check is queued, the state stays as it is under any schedule of calls
    and timer turns, so the cached object is the same until [reload()].
    A check still queued (left by a [reload()] made during a wait) can
    store another object; the cache is never emptied by a call or a timer
    turn. *)
Theorem cache_served_until_reload (c : ConfigObject) (s : State) :
  config s = Some c →
  (∀ key options w,
     get this key options w s
     = (Normal {| awaiting := Cached c;
                  resume := get_resume this key options |}, s))
  ∧ (∀ w, getAll this w s
          = (Normal {| awaiting := Cached c; resume := getAll_resume |}, s))
  ∧ (∀ sched, Forall (λ aw, is_call aw = true) sched →
     run this sched s = (repeat (Cached c) (length sched), s)
     ∧ log (snd (run this sched s)) = log s)
  ∧ (∀ w s', awaited (Cached c) s' = Some (Normal c)
             ∧ getAll_resume (Normal c) w s' = (Normal c, s'))
  ∧ (∀ w w', let s1 := snd (reload w s) in
       config s1 = None ∧ isLoaded s1 = false
       ∧ (is_Some (window w') →
          ∃ rest, log (snd (loadConfig this w' s1))
                  = (log s ++ SlotRead K :: rest)%list))
  ∧ (timers s = [] →
     ∀ sched, run this sched s = (repeat (Cached c) (calls sched), s))
  ∧ (∀ sched, isLoaded (snd (run this sched s)) = true).
Proof.
  intros Hc.
  split; [|split; [|split; [|split; [|split; [|split]]]]].
  - intros key options w. apply get_call. by apply loadConfig_cached.
  - intros w. apply getAll_call. by apply loadConfig_cached.
  - intros sched Hcalls. split; [by apply run_calls_cached|].
    by rewrite (run_calls_cached this c).
  - intros w s'. by split.
  - intros w w'. cbv zeta. split; [done|]. split; [done|].
    intros Hw. cbn.
    rewrite loadConfig_idle by reflexivity. cbn.
    rewrite checkConfig_cases. unfold slot_of. fold K.
    destruct Hw as [g ->]. cbn.
    destruct (default _ (g !! K)) as [f|o]; cbn.
    + destruct (maxWaitMs this <=? now w' - now w')%Z; cbn.
      * rewrite settle_log. cbn. rewrite <- app_assoc. eauto.
      * eauto.
    + rewrite settle_log. cbn. rewrite <- !app_assoc. eauto.
  - intros Ht sched. by apply run_without_timers_stable.
  - intros sched. apply run_keeps_loaded. unfold isLoaded. by rewrite Hc.
Qed.


End LoaderStateClaims.

Lemma cache_served_until_reload_witness :
  let s := snd (ConfigLoader.loadConfig default_loader (world_with_slot 0)
                  ConfigLoader.initial) in
  ConfigLoader.config s = Some sample_env
  ∧ run default_loader
      [(Call, world_without_slot 7); (Call, world_without_window 9)] s
    = ([ConfigLoader.Cached sample_env; ConfigLoader.Cached sample_env], s).
Proof.
  cbv zeta. split; [reflexivity|].
  destruct (cache_served_until_reload default_loader sample_env
              (snd (ConfigLoader.loadConfig default_loader (world_with_slot 0)
                      ConfigLoader.initial)) eq_refl)
    as (_ & _ & Hrun & _).
  apply (Hrun [(Call, world_without_slot 7); (Call, world_without_window 9)]).
  repeat constructor.
Defined.

Section Coalescing.
Import ConfigLoader.
Variable this : ConfigLoader.t.
Let K := configKey this.

(** The first call of an idle instance that finds the slot falsy and
    the deadline ahead enters the Waiting state with a new promise. *)
Lemma first_call_starts_waiting (w : World) (s : State) :
  config s = None → loadingPromise s = None → timers s = [] →
  (0 < maxWaitMs this)%Z →
  (∃ f, slot_of w K = Some (FalsyValue f)) →
  fst (loadConfig this w s) = Normal (InFlight (length (promises s)))
  ∧ waiting (length (promises s)) (now w) (snd (loadConfig this w s))
  ∧ promises (snd (loadConfig this w s)) = (promises s ++ [Pending])%list.
Proof.
  intros Hc Hp Ht Hmax (f & Hf).
  rewrite loadConfig_idle by done. cbv zeta.
  rewrite checkConfig_cases. fold K. rewrite Hf.
  replace (now w - now w)%Z with 0%Z by lia.
  destruct (Z.leb_spec (maxWaitMs this) 0) as [Hle|_]; [lia|]. cbn.
  split; [done|]. split; [|done].
  unfold waiting. cbn. rewrite Hc, Ht. cbn.
  repeat split; eauto.
  rewrite lookup_app_r by done. by rewrite Nat.sub_diag.
Qed.

(** While the wait goes on, a call attaches to the promise in flight and
    a timer only replaces itself: no promise is created, and the queue
    keeps exactly one check. *)
Lemma step_keeps_waiting (p : nat) (startTime : Z) (a : Action)
    (w : World) (s : State) :
  waiting p startTime s → keeps_waiting this startTime (a, w) →
  fst (step this a w s)
    = (if is_call (a, w) then Some (InFlight p) else None)
  ∧ waiting p startTime (snd (step this a w s))
  ∧ promises (snd (step this a w s)) = promises s.
Proof.
  intros (Hc & Hp & Hpend & due & Ht) Hk.
  destruct a as [|n]; cbn.
  - rewrite (loadConfig_in_flight this p) by done. cbn.
    repeat split; eauto.
  - destruct Hk as ((f & Hf) & Hlt). cbn in Hf, Hlt. fold K in Hf.
    unfold fire. rewrite Ht.
    destruct n as [|n]; cbn; [|by repeat split; eauto].
    destruct (Z.leb_spec due (now w)) as [Hdue|_]; cbn;
      [|by repeat split; eauto].
    rewrite checkConfig_cases. fold K. rewrite Hf.
    destruct (Z.leb_spec (maxWaitMs this) (now w - startTime)) as [Hle|_];
      [lia|].
    cbn. repeat split; eauto.
Qed.

Lemma run_keeps_waiting (p : nat) (startTime : Z)
    (sched : list (Action * World)) (s : State) :
  waiting p startTime s →
  Forall (keeps_waiting this startTime) sched →
  fst (run this sched s) = repeat (InFlight p) (calls sched)
  ∧ waiting p startTime (snd (run this sched s))
  ∧ promises (snd (run this sched s)) = promises s.
Proof.
  intros Hw Hall. revert s Hw.
  induction Hall as [|[a w] sched Hk _ IH]; intros s Hw; [by cbn|].
  destruct (step_keeps_waiting p startTime a w s Hw Hk) as (Hr & Hw' & Hps).
  destruct (IH _ Hw') as (Hrs & Hw'' & Hps').
  cbn [run]. rewrite (surjective_pairing (step this a w s)).
  rewrite (surjective_pairing (run this sched (snd (step this a w s)))).
  cbn [fst snd]. rewrite Hr, Hrs.
  split; [|split; [done|congruence]].
  unfold calls. cbn [List.filter]. by destruct (is_call (a, w)).
Qed.

(** The check that finds the slot ends the wait: the promise in flight
    is fulfilled with the slot's object, which is also cached. *)
Lemma fire_ends_waiting (p : nat) (startTime : Z) (w : World) (s : State)
    (c : ConfigObject) (tm : Timer) :
  waiting p startTime s →
  slot_of w K = Some (ObjectValue c) →
  timers s = [tm] → (timer_due tm ≤ now w)%Z →
  let s' := fire this 0 w s in
  promises s' !! p = Some (Fulfilled c)
  ∧ config s' = Some c ∧ timers s' = []
  ∧ length (promises s') = length (promises s).
Proof.
  intros (Hc & Hp & Hpend & due & Ht) Hslot Htm Hdue. cbv zeta.
  rewrite Ht in Htm. injection Htm as <-. cbn in Hdue.
  unfold fire. rewrite Ht. cbn.
  destruct (Z.leb_spec due (now w)) as [_|Hlt]; [|lia]. cbn.
  rewrite checkConfig_cases. fold K. rewrite Hslot. cbn.
  rewrite settle_config, settle_timers, settle_length. cbn.
  repeat split. by apply settle_pending.
Qed.

(** C4, amended.  On an idle instance with no check left queued (none
    left over by a [reload()] made during a wait), let a first [get] or
    [getAll] find the slot falsy, and let any number of further calls and
    timer runs follow while the slot stays falsy and the deadline is not
    reached.  Then every call, [get] or [getAll], is handed the same
    promise, created by the first call, and changes nothing; no other
    promise is created; the queue holds exactly one check throughout; and
    when that check finds the slot, the promise is fulfilled with the
    slot's object, which every caller receives. *)
Theorem concurrent_calls_share_one_poll (s0 : State) (w0 : World)
    (sched : list (Action * World)) :
  config s0 = None → loadingPromise s0 = None → timers s0 = [] →
  (0 < maxWaitMs this)%Z →
  (∃ f, slot_of w0 K = Some (FalsyValue f)) →
  Forall (keeps_waiting this (now w0)) sched →
  let p := length (promises s0) in
  let first := loadConfig this w0 s0 in
  let rest := run this sched (snd first) in
  fst first = Normal (InFlight p)
  ∧ fst rest = repeat (InFlight p) (calls sched)
  ∧ promises (snd rest) = (promises s0 ++ [Pending])%list
  ∧ waiting p (now w0) (snd rest)
  ∧ (∀ wf c tm,
       slot_of wf K = Some (ObjectValue c) →
       timers (snd rest) = [tm] → (timer_due tm ≤ now wf)%Z →
       let s3 := fire this 0 wf (snd rest) in
       awaited (InFlight p) s3 = Some (Normal c)
       ∧ config s3 = Some c ∧ timers s3 = []
       ∧ length (promises s3) = S (length (promises s0)))
  ∧ (∀ key options,
       get this key options w0 s0
       = (Normal {| awaiting := InFlight p;
                    resume := get_resume this key options |}, snd first)
       ∧ getAll this w0 s0
         = (Normal {| awaiting := InFlight p; resume := getAll_resume |},
            snd first))
  ∧ (∀ key options w,
       get this key options w (snd rest)
       = (Normal {| awaiting := InFlight p;
                    resume := get_resume this key options |}, snd rest)
       ∧ getAll this w (snd rest)
         = (Normal {| awaiting := InFlight p; resume := getAll_resume |},
            snd rest)).
Proof.
  intros Hc Hp Ht Hmax Hslot Hall. cbv zeta.
  destruct (first_call_starts_waiting w0 s0 Hc Hp Ht Hmax Hslot)
    as (Hfirst & Hw & Hps).
  destruct (run_keeps_waiting _ _ sched _ Hw Hall) as (Hrs & Hw' & Hps').
  split; [done|]. split; [done|]. split; [congruence|]. split; [done|].
  split; [|split].
  - intros wf c tm Hwf Htm Hdue.
    destruct (fire_ends_waiting _ _ wf _ c tm Hw' Hwf Htm Hdue)
      as (Hful & Hcfg & Htimers & Hlen).
    cbn [awaited]. rewrite Hful. repeat split; try done.
    rewrite Hlen, Hps', Hps, length_app. cbn. lia.
  - assert (Hload : loadConfig this w0 s0
                    = (Normal (InFlight (length (promises s0))),
                       snd (loadConfig this w0 s0))).
    { rewrite <- Hfirst. apply surjective_pairing. }
    intros key options. split; [by apply get_call|by apply getAll_call].
  - destruct Hw' as (Hc' & Hp' & _).
    intros key options w.
    split; [apply get_call|apply getAll_call];
      by apply loadConfig_in_flight.
Qed.

End Coalescing.

Lemma concurrent_calls_share_one_poll_witness :
  let first := ConfigLoader.loadConfig default_loader (world_without_slot 0)
                 ConfigLoader.initial in
  let rest := run default_loader
                [(Call, world_without_slot 1); (Call, world_without_slot 2);
                 (Fire 0, world_without_slot 50); (Call, world_with_slot 60)]
                (snd first) in
  fst first = Normal (ConfigLoader.InFlight 0)
  ∧ fst rest = repeat (ConfigLoader.InFlight 0) 3
  ∧ ConfigLoader.promises (snd rest) = [ConfigLoader.Pending].
Proof.
  cbv zeta.
  destruct (concurrent_calls_share_one_poll default_loader
              ConfigLoader.initial (world_without_slot 0)
              [(Call, world_without_slot 1); (Call, world_without_slot 2);
               (Fire 0, world_without_slot 50); (Call, world_with_slot 60)])
    as (Hfirst & Hrest & Hps & _).
  - reflexivity.
  - reflexivity.
  - reflexivity.
  - reflexivity.
  - exists FUndefined. reflexivity.
  - repeat constructor; cbn; try (exists FUndefined; reflexivity).
  - repeat split; assumption.
Defined.

Section StaleTimers.
Import ConfigLoader.
Variable this : ConfigLoader.t.
Let K := configKey this.

(** [reload()] resets the two fields and nothing else: promises and
    queued timers stay. *)
Lemma reload_effect (w : World) (s : State) :
  reload w s
  = (Normal tt, set_loadingPromise None (set_config None s)).
Proof. reflexivity. Qed.


(** A timeout found by a queued check of a waiting instance brings it
    back to Idle: promise rejected with the timeout error, no cache, no
    promise in flight, no timer.  After [reload()] the next call creates a
    new promise and reads the slot again. *)
Lemma timeout_at_queued_check (p : nat) (startTime : Z) (w : World)
    (s : State) (f : Falsy) (tm : Timer) :
  waiting p startTime s →
  slot_of w K = Some (FalsyValue f) →
  timers s = [tm] → (timer_due tm ≤ now w)%Z →
  (maxWaitMs this ≤ now w - startTime)%Z →
  let s' := fire this 0 w s in
  promises s' !! p = Some (Rejected (LoadTimeoutError (maxWaitMs this) K))
  ∧ config s' = None ∧ loadingPromise s' = None ∧ timers s' = []
  ∧ (∀ w1 w2,
       fst (loadConfig this w2 (snd (reload w1 s')))
       = Normal (InFlight (length (promises s)))).
Proof.
  intros (Hc & Hp & Hpend & due & Ht) Hslot Htm Hdue Hmax. cbv zeta.
  rewrite Ht in Htm. injection Htm as <-. cbn in Hdue.
  unfold fire. rewrite Ht. cbn.
  destruct (Z.leb_spec due (now w)) as [_|Hlt]; [|lia]. cbn.
  rewrite checkConfig_cases. fold K. rewrite Hslot.
  apply Z.leb_le in Hmax. rewrite Hmax. cbn.
  rewrite settle_config, settle_loadingPromise, settle_timers. cbn.
  split; [by apply settle_pending|]. repeat split; try done.
  intros w1 w2. rewrite reload_effect. cbn [snd].
  rewrite loadConfig_idle by reflexivity. cbn.
  by rewrite settle_length.
Qed.

End StaleTimers.



(** C5 at [maxWaitMs = 0].  The first check runs inside the promise
    executor and times out at once: the promise is rejected with the
    timeout error and the cache stays empty, but the assignment that
    follows the executor stores the rejected promise in [loadingPromise].
    The instance is not idle: a later call, even with the slot present,
    is handed the rejected promise and starts no poll. *)
Lemma timeout_in_executor_keeps_reference :
  let r := ConfigLoader.loadConfig impatient_loader (world_without_slot 0)
             ConfigLoader.initial in
  fst r = Normal (ConfigLoader.InFlight 0)
  ∧ ConfigLoader.promises (snd r)
    = [ConfigLoader.Rejected (LoadTimeoutError 0 "ENV")]
  ∧ ConfigLoader.config (snd r) = None
  ∧ ConfigLoader.loadingPromise (snd r) = Some 0
  ∧ ConfigLoader.timers (snd r) = []
  ∧ ConfigLoader.loadConfig impatient_loader (world_with_slot 5) (snd r)
    = (Normal (ConfigLoader.InFlight 0), snd r)
  ∧ ConfigLoader.awaited (ConfigLoader.InFlight 0) (snd r)
    = Some (Throw (LoadTimeoutError 0 "ENV")).
Proof. cbv zeta. repeat split; vm_compute; reflexivity. Qed.

(** The timeout scenario of the package description: [maxWaitMs = 100],
    [pollIntervalMs = 10], slot never set.  The checks at 10, ..., 90 ms
    re-arm the timer; the one at 100 ms rejects the promise and leaves the
    instance idle. *)
Example timeout_after_100ms :
  let loader := ConfigLoader.new
                  {| ConfigLoader.opt_maxWaitMs := Some 100%Z;
                     ConfigLoader.opt_pollIntervalMs := Some 10%Z;
                     ConfigLoader.opt_configKey := None |} in
  let ticks := map (λ t, (Fire 0, world_without_slot t))
                 [10; 20; 30; 40; 50; 60; 70; 80; 90]%Z in
  let s1 := snd (ConfigLoader.loadConfig loader (world_without_slot 0)
                   ConfigLoader.initial) in
  let s2 := snd (run loader ticks s1) in
  let s3 := ConfigLoader.fire loader 0 (world_without_slot 100) s2 in
  ConfigLoader.promises s2 = [ConfigLoader.Pending]
  ∧ ConfigLoader.timers s2
    = [ {| ConfigLoader.timer_promise := 0; ConfigLoader.timer_start := 0;
           ConfigLoader.timer_due := 100 |} ]
  ∧ ConfigLoader.promises s3
    = [ConfigLoader.Rejected (LoadTimeoutError 100 "ENV")]
  ∧ ConfigLoader.config s3 = None
  ∧ ConfigLoader.loadingPromise s3 = None
  ∧ ConfigLoader.timers s3 = [].
Proof. cbv zeta. repeat split; vm_compute; reflexivity. Qed.

(** Without a global object the first check raises inside the executor:
    the promise is rejected with that error and stays in
    [loadingPromise]. *)
Example loadConfig_without_window :
  let r := ConfigLoader.loadConfig default_loader (world_without_window 0)
             ConfigLoader.initial in
  ConfigLoader.promises (snd r) = [ConfigLoader.Rejected ReferenceError]
  ∧ ConfigLoader.loadingPromise (snd r) = Some 0
  ∧ ConfigLoader.timers (snd r) = [].
Proof. cbv zeta. repeat split; vm_compute; reflexivity. Qed.

(** * Further properties of the synchronous accessor *)

Section ConfigFurther.
Variable this : Config.t.
Let K := Config.configKey this.

Lemma getBoolean_cases (key : string) (defaultValue : option bool)
    (w : World) (tr : list Event) :
  fst (Config.getBoolean this key defaultValue w tr) =
    match slot_of w K with
    | None => Throw (NonBrowserError K)
    | Some (FalsyValue _) => Throw (SlotUndefinedError K)
    | Some (ObjectValue o) =>
        Normal (bool_decide
                  ((if str_truthy (prop o key) then prop o key else None)
                   = Some "true")
                || default false defaultValue)
    end.
Proof.
  unfold Config.getBoolean. unfold mbind, JS_bind, js_bind.
  rewrite getOptional_cases. fold K.
  destruct (slot_of w K) as [[f|o]|]; reflexivity.
Qed.

Lemma isAvailable_cases (w : World) (tr : list Event) :
  fst (Config.isAvailable this w tr) =
    Normal match slot_of w K with
           | Some v => truthy v
           | None => false
           end.
Proof.
  unfold Config.isAvailable, slot_of. js_unfold.
  destruct w as [[g|] t]; reflexivity.
Qed.

(** X1.  [getOptional(key)] fails exactly when there is no global object
    or the slot is falsy, and then with a ConfigSourceUnavailable error;
    it returns the string [v] exactly when the slot's object holds the
    non-empty string [v] for [key], and [undefined] exactly when that
    value is [undefined] or the empty string.  It never returns the empty
    string. *)
Theorem getOptional_outcome (key : string) (w : World) (tr : list Event) :
  let r := fst (Config.getOptional this key w tr) in
  ((∃ e, r = Throw e)
     ↔ (window w = None ∨ ∃ f, slot_of w K = Some (FalsyValue f)))
  ∧ (∀ e, r = Throw e → error_kind e = ConfigSourceUnavailable)
  ∧ (∀ v, r = Normal (Some v)
     ↔ (∃ o, slot_of w K = Some (ObjectValue o)
             ∧ prop o key = Some v ∧ v ≠ ""))
  ∧ (r = Normal None
     ↔ (∃ o, slot_of w K = Some (ObjectValue o)
             ∧ (prop o key = None ∨ prop o key = Some "")))
  ∧ r ≠ Normal (Some "").
Proof.
  cbv zeta. rewrite getOptional_cases. fold K. unfold slot_of.
  destruct (window w) as [g|]; cbn.
  2:{ repeat split; try (intros; by eauto); try discriminate.
      - intros ? [= <-]. done.
      - intros (o & Ho & _). discriminate.
      - intros (o & Ho & _). discriminate. }
  destruct (default _ (g !! K)) as [f|o]; cbn.
  { repeat split; try (intros; by eauto); try discriminate.
    - intros ? [= <-]. done.
    - intros (o & Ho & _). discriminate.
    - intros (o & Ho & _). discriminate. }
  assert (Hcases : prop o key = None ∨ prop o key = Some ""
                   ∨ ∃ s, prop o key = Some s ∧ s ≠ "").
  { destruct (prop o key) as [s|]; [|by left]. right.
    destruct (String.eqb_spec s "") as [->|Hne]; [by left|right; eauto]. }
  assert (Hr : (if str_truthy (prop o key) then prop o key else None)
               = match prop o key with
                 | Some "" | None => None
                 | Some s => Some s
                 end).
  { destruct (prop o key) as [s|]; [|done]. cbn.
    destruct (String.eqb_spec s "") as [->|Hne]; [done|].
    destruct s; [done|reflexivity]. }
  rewrite Hr. clear Hr.
  split; [|split; [|split; [|split]]].
  - split; [intros (e & He); discriminate|].
    intros [Hn | (f & Hf)]; discriminate.
  - intros e He. discriminate.
  - intros v. split.
    + intros Hv. exists o. split; [done|].
      destruct Hcases as [Hp | [Hp | (s & Hp & Hne)]]; rewrite Hp in Hv |- *.
      * discriminate.
      * discriminate.
      * destruct s; [done|]. injection Hv as <-. done.
    + intros (o' & [= <-] & Hp & Hne). rewrite Hp.
      destruct v; [done|reflexivity].
  - split.
    + intros Hv. exists o. split; [done|].
      destruct Hcases as [Hp | [Hp | (s & Hp & Hne)]]; [by left|by right|].
      rewrite Hp in Hv. destruct s; [done|discriminate].
    + intros (o' & [= <-] & [Hp | Hp]); by rewrite Hp.
  - destruct Hcases as [Hp | [Hp | (s & Hp & Hne)]]; rewrite Hp;
      try discriminate.
    destruct s; [done|discriminate].
Qed.

(** X2.  On the same world [getRequired] and [getOptional] agree: the
    first returns [v] exactly when the second returns the string [v]; the
    first fails on the key exactly when the second returns [undefined];
    and both fail with the same error when the slot cannot be resolved. *)
Theorem getRequired_getOptional_agree (key : string) (w : World)
    (tr : list Event) :
  let req := fst (Config.getRequired this key w tr) in
  let opt := fst (Config.getOptional this key w tr) in
  (∀ v, req = Normal v ↔ opt = Normal (Some v))
  ∧ (req = Throw (RequiredEmptyError key K) ↔ opt = Normal None)
  ∧ (∀ e, opt = Throw e ↔ (req = Throw e ∧ e ≠ RequiredEmptyError key K)).
Proof.
  cbv zeta. rewrite getRequired_cases, getOptional_cases. fold K.
  destruct (slot_of w K) as [[f|o]|]; cbn.
  - repeat split; intros; destruct_and?; simplify_eq; done.
  - destruct (prop o key) as [s|]; cbn;
      [destruct (String.eqb_spec s "") as [->|Hne]; cbn|];
      repeat split; intros; destruct_and?; simplify_eq; done.
  - repeat split; intros; destruct_and?; simplify_eq; done.
Qed.

(** X3.  [isAvailable()] tells whether the accessors can resolve the
    slot.  When it answers [true], [getAll], [getOptional] and
    [getBoolean] all succeed and [getRequired] can only fail on the key.
    When it answers [false], all four fail with one and the same
    ConfigSourceUnavailable error, whatever default [getBoolean] is
    given. *)
Theorem isAvailable_guards_accessors (key : string)
    (defaultValue : option bool) (w : World) (tr : list Event) :
  let a := fst (Config.isAvailable this w tr) in
  (a = Normal true ∨ a = Normal false)
  ∧ (a = Normal true →
     (∃ o, fst (Config.getAll this w tr) = Normal o)
     ∧ (∃ v, fst (Config.getOptional this key w tr) = Normal v)
     ∧ (∃ b, fst (Config.getBoolean this key defaultValue w tr) = Normal b)
     ∧ (∀ e, fst (Config.getRequired this key w tr) = Throw e →
             error_kind e = MissingRequiredKey))
  ∧ (a = Normal false →
     ∃ e, error_kind e = ConfigSourceUnavailable
          ∧ fst (Config.getAll this w tr) = Throw e
          ∧ fst (Config.getOptional this key w tr) = Throw e
          ∧ fst (Config.getBoolean this key defaultValue w tr) = Throw e
          ∧ fst (Config.getRequired this key w tr) = Throw e).
Proof.
  cbv zeta. unfold Config.getAll.
  rewrite isAvailable_cases, getEnv_cases, getOptional_cases,
    getBoolean_cases, getRequired_cases. fold K.
  destruct (slot_of w K) as [[f|o]|]; cbn.
  - split; [by right|]. split; [discriminate|]. intros _.
    exists (SlotUndefinedError K). by repeat split.
  - split; [by left|]. split; [|discriminate]. intros _.
    repeat split; eauto.
    intros e. destruct (str_truthy (prop o key)); [discriminate|].
    by intros [= <-].
  - split; [by right|]. split; [discriminate|]. intros _.
    exists (NonBrowserError K). by repeat split.
Qed.

(** X4.  An accessor looks at nothing but its own slot: two worlds whose
    global objects agree on that slot (whatever else they contain, and
    whatever the clock says) give every method the same outcome. *)
Theorem accessors_read_only_their_slot (key : string)
    (defaultValue : option bool) (w1 w2 : World) (tr : list Event) :
  slot_of w1 K = slot_of w2 K →
  fst (Config.getRequired this key w1 tr)
    = fst (Config.getRequired this key w2 tr)
  ∧ fst (Config.getOptional this key w1 tr)
    = fst (Config.getOptional this key w2 tr)
  ∧ fst (Config.getBoolean this key defaultValue w1 tr)
    = fst (Config.getBoolean this key defaultValue w2 tr)
  ∧ fst (Config.getAll this w1 tr) = fst (Config.getAll this w2 tr)
  ∧ fst (Config.isAvailable this w1 tr)
    = fst (Config.isAvailable this w2 tr).
Proof.
  intros Heq. unfold Config.getAll.
  rewrite !isAvailable_cases, !getEnv_cases, !getOptional_cases,
    !getBoolean_cases, !getRequired_cases. fold K. rewrite Heq.
  destruct (slot_of w2 K) as [[f|o]|]; by repeat split.
Qed.

End ConfigFurther.

Lemma accessors_read_only_their_slot_witness :
  fst (Config.getRequired default_config "API_URL"
         {| window := Some {[ "ENV" := ObjectValue sample_env;
                              "OTHER" := FalsyValue FNull ]};
            now := 99 |} [])
  = fst (Config.getRequired default_config "API_URL" (world_with_slot 0) []).
Proof.
  destruct (accessors_read_only_their_slot default_config "API_URL" None
              {| window := Some {[ "ENV" := ObjectValue sample_env;
                                   "OTHER" := FalsyValue FNull ]};
                 now := 99 |}
              (world_with_slot 0) []) as (Hreq & _).
  - vm_compute. reflexivity.
  - exact Hreq.
Defined.

(** * Further properties of the polling loader *)

Section LoaderFurther.
Import ConfigLoader.
Variable this : ConfigLoader.t.
Let K := configKey this.

Lemma run_cons (a : Action) (w : World) (sched : list (Action * World))
    (s : State) :
  run this ((a, w) :: sched) s
  = (match fst (step this a w s) with
     | Some x => x :: fst (run this sched (snd (step this a w s)))
     | None => fst (run this sched (snd (step this a w s)))
     end,
     snd (run this sched (snd (step this a w s)))).
Proof.
  cbn [run]. destruct (step this a w s) as [r s']. cbn [fst snd].
  by destruct (run this sched s') as [rs s''].
Qed.

(** The first check of an idle instance that finds the slot. *)
Lemma first_check_finds_slot (w : World) (s : State) (c : ConfigObject) :
  config s = None → loadingPromise s = None →
  slot_of w K = Some (ObjectValue c) →
  loadConfig this w s =
    (Normal (InFlight (length (promises s))),
     set_loadingPromise (Some (length (promises s)))
       (settle (length (promises s)) (Fulfilled c)
          (set_loadingPromise None
             (set_config (Some c)
                (emit (ConsoleLog K)
                   (emit (SlotRead K)
                      (set_promises (promises s ++ [Pending])%list s))))))).
Proof.
  intros Hc Hp Hslot. rewrite loadConfig_idle by done. cbv zeta.
  rewrite checkConfig_cases. fold K. by rewrite Hslot.
Qed.

Lemma new_promise_pending (s : State) :
  (promises s ++ [Pending])%list !! length (promises s) = Some Pending.
Proof. rewrite lookup_app_r by done. by rewrite Nat.sub_diag. Qed.

(** X5.  When the slot is already there at the first call of an idle
    instance, the load completes inside that call, whatever [maxWaitMs]
    is: the caller's promise is fulfilled with the slot's object, the
    object is cached, no timer is queued, and every later call is served
    from the cache. *)
Theorem slot_present_loads_at_once (w : World) (s : State)
    (c : ConfigObject) :
  config s = None → loadingPromise s = None →
  slot_of w K = Some (ObjectValue c) →
  let r := loadConfig this w s in
  (∃ p, fst r = Normal (InFlight p)
        ∧ awaited (InFlight p) (snd r) = Some (Normal c))
  ∧ config (snd r) = Some c
  ∧ isLoaded (snd r) = true
  ∧ timers (snd r) = timers s
  ∧ (∀ w', loadConfig this w' (snd r) = (Normal (Cached c), snd r)).
Proof.
  intros Hc Hp Hslot. cbv zeta.
  rewrite (first_check_finds_slot w s c) by done. cbn [fst snd].
  assert (Hcfg : config
            (set_loadingPromise (Some (length (promises s)))
               (settle (length (promises s)) (Fulfilled c)
                  (set_loadingPromise None
                     (set_config (Some c)
                        (emit (ConsoleLog K)
                           (emit (SlotRead K)
                              (set_promises (promises s ++ [Pending])%list
                                 s))))))) = Some c).
  { cbn. by rewrite settle_config. }
  split; [|split; [done|split; [|split]]].
  - eexists. split; [reflexivity|]. cbn.
    rewrite settle_pending; [done|]. cbn. apply new_promise_pending.
  - unfold isLoaded. by rewrite Hcfg.
  - cbn. by rewrite settle_timers.
  - intros w'. by apply loadConfig_cached.
Qed.

(** X6.  Without a global object the loader does not wait for the
    deadline: the first call of an idle instance rejects its promise at
    once with the error of the unguarded [window] read, queues no timer,
    and keeps that rejected promise in [loadingPromise], so every later
    call, in any world, is handed the same rejection and never looks at
    the slot. *)
Theorem no_window_rejects_at_once (w : World) (s : State) :
  config s = None → loadingPromise s = None → window w = None →
  let r := loadConfig this w s in
  let p := length (promises s) in
  fst r = Normal (InFlight p)
  ∧ awaited (InFlight p) (snd r) = Some (Throw ReferenceError)
  ∧ config (snd r) = None
  ∧ loadingPromise (snd r) = Some p
  ∧ timers (snd r) = timers s
  ∧ log (snd r) = log s
  ∧ (∀ w', loadConfig this w' (snd r) = (Normal (InFlight p), snd r)).
Proof.
  intros Hc Hp Hw. cbv zeta.
  rewrite loadConfig_idle by done. cbv zeta.
  rewrite checkConfig_cases. unfold slot_of. rewrite Hw. cbn [fmap option_fmap option_map fst snd].
  assert (Hcfg : config
            (set_loadingPromise (Some (length (promises s)))
               (settle (length (promises s)) (Rejected ReferenceError)
                  (set_promises (promises s ++ [Pending])%list s))) = None).
  { cbn. by rewrite settle_config. }
  split; [done|]. split; [|split; [done|split; [done|split; [|split]]]].
  - cbn. rewrite settle_pending; [done|]. cbn. apply new_promise_pending.
  - cbn. by rewrite settle_timers.
  - cbn. by rewrite settle_log.
  - intros w'. by apply loadConfig_in_flight.
Qed.

(** X7.  [isLoaded()] is true exactly when calls are served from the
    cache without touching the state; when it is false a call is handed
    a promise instead. *)
Theorem isLoaded_iff_served_from_cache (s : State) :
  (isLoaded s = true
   ↔ ∃ c, ∀ w, loadConfig this w s = (Normal (Cached c), s))
  ∧ (isLoaded s = false
     ↔ ∀ w, ∃ p, fst (loadConfig this w s) = Normal (InFlight p)).
Proof.
  unfold isLoaded. destruct (config s) as [c|] eqn:Hc.
  - split; split; try done.
    + intros _. exists c. intros w. by apply loadConfig_cached.
    + intros Hall. destruct (Hall (world_without_window 0)) as (p & Hp).
      rewrite (loadConfig_cached this c) in Hp by done. discriminate.
  - assert (Hin : ∀ w, ∃ p, fst (loadConfig this w s) = Normal (InFlight p)).
    { intros w. destruct (loadingPromise s) as [p|] eqn:Hp.
      - rewrite (loadConfig_in_flight this p) by done. eauto.
      - rewrite loadConfig_idle by done. cbn. eauto. }
    split; split; try done.
    intros (c & Hall). destruct (Hin (world_without_window 0)) as (p & Hp).
    rewrite Hall in Hp. discriminate.
Qed.

(** X8.  [reload()] followed by a call picks up what the slot holds at
    that moment: whatever was cached or in flight before, the call is
    fulfilled with the slot's current object and caches it. *)
Theorem reload_then_call_reads_slot (w0 w : World) (s : State)
    (c : ConfigObject) :
  slot_of w K = Some (ObjectValue c) →
  let s1 := snd (reload w0 s) in
  let r := loadConfig this w s1 in
  (∃ p, fst r = Normal (InFlight p)
        ∧ awaited (InFlight p) (snd r) = Some (Normal c))
  ∧ config (snd r) = Some c.
Proof.
  intros Hslot. cbv zeta. rewrite reload_effect. cbn [snd].
  rewrite (first_check_finds_slot w _ c) by done. cbn [fst snd].
  split.
  - eexists. split; [reflexivity|]. cbn.
    rewrite settle_pending; [done|]. cbn. apply new_promise_pending.
  - cbn. by rewrite settle_config.
Qed.

(** X9.  Once the cache is filled and no check is queued, nothing moves
    any more: every call returns the cached object and every timer turn
    is idle, so the whole state stays as it is under any schedule of
    calls and timer turns. *)
Theorem loaded_state_is_stable (c : ConfigObject) (s : State)
    (sched : list (Action * World)) :
  config s = Some c → timers s = [] →
  run this sched s = (repeat (Cached c) (calls sched), s).
Proof.
  intros Hc Ht. induction sched as [|[a w] sched IH]; [reflexivity|].
  rewrite run_cons. destruct a as [|n]; cbn [step].
  - rewrite (loadConfig_cached this c) by done. cbn [fst snd].
    by rewrite IH.
  - unfold fire. rewrite Ht, lookup_nil. cbn [fst snd].
    by rewrite IH.
Qed.

End LoaderFurther.

Section LoaderInvariants.
Import ConfigLoader.
Variable this : ConfigLoader.t.
Let K := configKey this.

Lemma settled_kept_refl (s : State) : settled_kept s s.
Proof. by intros p st Hp _. Qed.

Lemma settled_kept_trans (s1 s2 s3 : State) :
  settled_kept s1 s2 → settled_kept s2 s3 → settled_kept s1 s3.
Proof. intros H12 H23 p st Hp Hst. eauto. Qed.

Lemma settled_kept_same (s s' : State) :
  promises s' = promises s → settled_kept s s'.
Proof. intros Heq p st Hp _. by rewrite Heq. Qed.

Lemma settle_keeps_settled (p : nat) (st : PromiseState) (s : State) :
  settled_kept s (settle p st s).
Proof.
  intros q st' Hq Hst'. destruct (decide (q = p)) as [->|Hne].
  - rewrite settle_settled; [done|]. rewrite Hq. congruence.
  - by rewrite settle_other.
Qed.

Lemma checkConfig_keeps_settled (startTime : Z) (p : nat) (w : World)
    (s : State) :
  settled_kept s (snd (checkConfig this startTime p w s)).
Proof.
  rewrite checkConfig_cases.
  destruct (slot_of w (configKey this)) as [[f|c]|]; cbn [snd].
  - destruct (maxWaitMs this <=? now w - startTime)%Z; cbn [snd].
    + eapply settled_kept_trans; [|apply settle_keeps_settled].
      by apply settled_kept_same.
    + by apply settled_kept_same.
  - eapply settled_kept_trans; [|apply settle_keeps_settled].
    by apply settled_kept_same.
  - apply settled_kept_refl.
Qed.

Lemma loadConfig_keeps_settled (w : World) (s : State) :
  settled_kept s (snd (loadConfig this w s)).
Proof.
  destruct (config s) as [c|] eqn:Hc.
  { rewrite (loadConfig_cached this c) by done. apply settled_kept_refl. }
  destruct (loadingPromise s) as [p|] eqn:Hp.
  { rewrite (loadConfig_in_flight this p) by done. apply settled_kept_refl. }
  rewrite loadConfig_idle by done. cbv zeta. cbn [snd].
  eapply settled_kept_trans with
    (s2 := set_promises (promises s ++ [Pending])%list s).
  { intros q st Hq _. cbn. rewrite lookup_app_l; [done|].
    by eapply lookup_lt_Some. }
  pose proof (checkConfig_keeps_settled (now w) (length (promises s)) w
                (set_promises (promises s ++ [Pending])%list s)) as Hck.
  destruct (checkConfig this (now w) (length (promises s)) w _)
    as [[[]|e] s'] eqn:Hcheck; cbn [snd] in Hck.
  - eapply settled_kept_trans; [exact Hck|]. by apply settled_kept_same.
  - eapply settled_kept_trans; [exact Hck|].
    eapply settled_kept_trans; [apply settle_keeps_settled|].
    by apply settled_kept_same.
Qed.

Lemma fire_keeps_settled (n : nat) (w : World) (s : State) :
  settled_kept s (fire this n w s).
Proof.
  unfold fire. destruct (timers s !! n) as [tm|]; [|apply settled_kept_refl].
  destruct (timer_due tm <=? now w)%Z; [|apply settled_kept_refl].
  eapply settled_kept_trans; [|apply checkConfig_keeps_settled].
  by apply settled_kept_same.
Qed.

Lemma run_ops_keeps_settled (ops : list (Op * World)) (s : State) :
  settled_kept s (run_ops this ops s).
Proof.
  revert s. induction ops as [|[o w] ops IH]; intros s;
    [apply settled_kept_refl|].
  cbn [run_ops]. eapply settled_kept_trans; [|apply IH].
  destruct o as [|n|]; cbn [step_op].
  - apply loadConfig_keeps_settled.
  - apply fire_keeps_settled.
  - by apply settled_kept_same.
Qed.

(** X10.  A promise is settled once and for all: whatever calls, timer
    turns and [reload()]s follow, in whatever worlds, a promise that is
    fulfilled or rejected stays so with the same value, and a caller whose
    [await] has an outcome keeps that outcome. *)
Theorem settled_outcome_is_final (ops : list (Op * World)) (s : State) :
  settled_kept s (run_ops this ops s)
  ∧ (∀ r out, awaited r s = Some out →
              awaited r (run_ops this ops s) = Some out).
Proof.
  split; [apply run_ops_keeps_settled|].
  intros [c|p] out; cbn; [done|].
  destruct (promises s !! p) as [[|c|e]|] eqn:Hp; try discriminate;
    intros [= <-].
  - by rewrite (run_ops_keeps_settled ops s p (Fulfilled c)).
  - by rewrite (run_ops_keeps_settled ops s p (Rejected e)).
Qed.

Lemma step_keeps_single_poll (a : Action) (w : World) (s : State) :
  single_poll s → single_poll (snd (step this a w s)).
Proof.
  intros Hinv. destruct a as [|n]; cbn [step].
  - destruct (config s) as [c|] eqn:Hc.
    { by rewrite (loadConfig_cached this c). }
    destruct (loadingPromise s) as [p|] eqn:Hp.
    { by rewrite (loadConfig_in_flight this p). }
    assert (Ht : timers s = []).
    { destruct Hinv as [Ht | (tm & _ & _ & Hlp & _)]; [done|congruence]. }
    rewrite loadConfig_idle by done. cbv zeta. cbn [snd].
    rewrite checkConfig_cases.
    destruct (slot_of w (configKey this)) as [[f|c]|].
    + destruct (maxWaitMs this <=? now w - now w)%Z.
      * left. cbn. by rewrite settle_timers.
      * right. eexists. cbn. rewrite Ht. cbn.
        split; [reflexivity|]. split; [done|]. split; [done|].
        cbn. apply new_promise_pending.
    + left. cbn. by rewrite settle_timers.
    + left. cbn. by rewrite settle_timers.
  - cbn [snd]. unfold fire.
    destruct Hinv as [Ht | (tm & Ht & Hc & Hlp & Hpend)]; rewrite Ht.
    { by left. }
    destruct n as [|n]; cbn; [|by right; eauto].
    destruct (timer_due tm <=? now w)%Z; [|by right; eauto].
    rewrite checkConfig_cases.
    destruct (slot_of w (configKey this)) as [[f|c]|].
    + destruct (maxWaitMs this <=? now w - timer_start tm)%Z.
      * left. cbn. by rewrite settle_timers.
      * right. eexists. cbn. split; [reflexivity|]. by cbn.
    + left. cbn. by rewrite settle_timers.
    + by left.
Qed.

Lemma run_keeps_single_poll (sched : list (Action * World)) (s : State) :
  single_poll s → single_poll (snd (run this sched s)).
Proof.
  revert s. induction sched as [|[a w] sched IH]; intros s Hinv; [done|].
  rewrite run_cons. cbn [snd]. apply IH. by apply step_keeps_single_poll.
Qed.

(** X11.  An instance that is never reloaded runs at most one poll loop,
    in every environment (slot present or not, global object present or
    not, before or after the deadline): after any schedule of calls and
    timer turns from the initial state, at most one check is queued, and
    a queued check belongs to the promise in [loadingPromise], which is
    still pending, while the cache is empty. *)
Theorem never_two_polls (sched : list (Action * World)) :
  let s := snd (run this sched initial) in
  (length (timers s) ≤ 1)%nat
  ∧ (∀ tm, tm ∈ timers s →
       config s = None
       ∧ loadingPromise s = Some (timer_promise tm)
       ∧ promises s !! timer_promise tm = Some Pending).
Proof.
  cbv zeta.
  destruct (run_keeps_single_poll sched initial) as [Ht | (tm & Ht & Hrest)].
  { by left. }
  - rewrite Ht. split; [cbn; lia|]. intros tm Htm. by apply elem_of_nil in Htm.
  - rewrite Ht. split; [cbn; lia|]. intros tm' Htm.
    apply list_elem_of_singleton in Htm. by subst tm'.
Qed.

End LoaderInvariants.

Section PollingEnds.
Import ConfigLoader.
Variable this : ConfigLoader.t.
Let K := configKey this.
Variable g : gmap string SlotValue.
Variable f : Falsy.
Hypothesis slot_stays_falsy :
  default (FalsyValue FUndefined) (g !! K) = FalsyValue f.
Hypothesis positive_interval : (0 < pollIntervalMs this)%Z.

(** One check run when due, the slot being falsy: it either times out or
    re-arms itself one interval later. *)
Lemma due_check_falsy (p : nat) (startTime due : Z) (s : State) :
  timers s = [ {| timer_promise := p; timer_start := startTime;
                  timer_due := due |} ] →
  fire this 0 {| window := Some g; now := due |} s =
    if (maxWaitMs this <=? due - startTime)%Z
    then settle p (Rejected (LoadTimeoutError (maxWaitMs this) K))
           (set_loadingPromise None
              (emit ConsoleError (emit (SlotRead K) (set_timers [] s))))
    else set_timers
           [ {| timer_promise := p; timer_start := startTime;
                timer_due := (due + pollIntervalMs this)%Z |} ]
           (emit (SlotRead K) s).
Proof.
  intros Ht. unfold fire. rewrite Ht. cbn.
  rewrite Z.leb_refl. rewrite checkConfig_cases.
  unfold slot_of. cbn. fold K. rewrite slot_stays_falsy.
  destruct (maxWaitMs this <=? due - startTime)%Z; [done|].
  cbn. by rewrite Z.max_r by lia.
Qed.

Lemma poll_times_out (p : nat) (startTime : Z) (n : nat) :
  ∀ (s : State) (due : Z),
    config s = None →
    promises s !! p = Some Pending →
    timers s = [ {| timer_promise := p; timer_start := startTime;
                    timer_due := due |} ] →
    (startTime + maxWaitMs this
     ≤ due + Z.of_nat n * pollIntervalMs this)%Z →
    let s' := poll this g (S n) s in
    promises s' !! p
    = Some (Rejected (LoadTimeoutError (maxWaitMs this) K))
    ∧ length (promises s') = length (promises s)
    ∧ config s' = None ∧ loadingPromise s' = None ∧ timers s' = [].
Proof.
  induction n as [|n IH]; intros s due Hc Hpend Ht Hbound; cbv zeta.
  - cbn [poll]. rewrite Ht. cbn [timer_due].
    rewrite (due_check_falsy p startTime due s Ht).
    destruct (Z.leb_spec (maxWaitMs this) (due - startTime)) as [_|Hlt];
      [|lia].
    rewrite settle_config, settle_loadingPromise, settle_timers,
      settle_length.
    split; [by apply settle_pending|]. by repeat split.
  - change (poll this g (S (S n)) s)
      with (match timers s with
            | tm :: _ =>
                poll this g (S n)
                  (fire this 0 {| window := Some g; now := timer_due tm |} s)
            | [] => s
            end).
    rewrite Ht. cbn [timer_due].
    rewrite (due_check_falsy p startTime due s Ht).
    destruct (Z.leb_spec (maxWaitMs this) (due - startTime)) as [_|Hlt].
    + assert (Hdone : timers
                (settle p (Rejected (LoadTimeoutError (maxWaitMs this) K))
                   (set_loadingPromise None
                      (emit ConsoleError
                         (emit (SlotRead K) (set_timers [] s))))) = []).
      { by rewrite settle_timers. }
      cbn [poll]. rewrite Hdone.
      rewrite settle_config, settle_loadingPromise, settle_length.
      split; [by apply settle_pending|]. by repeat split.
    + destruct (IH (set_timers
                      [ {| timer_promise := p; timer_start := startTime;
                           timer_due := (due + pollIntervalMs this)%Z |} ]
                      (emit (SlotRead K) s))
                  (due + pollIntervalMs this)%Z)
        as (Hrej & Hlen & Hrest);
        [exact Hc | exact Hpend | reflexivity | lia |].
      split; [done|]. split; [|done]. by rewrite Hlen.
Qed.

(** X12.  The wait always ends.  If the slot stays falsy and the host
    runs each queued check when it is due, a waiting instance with a
    positive poll interval rejects its promise with the timeout error
    after at most [n + 1] checks, where [n] intervals from the queued due
    time reach the deadline.  The instance is then idle, with no timer
    left, and a [get] that awaited the promise fails with that error even
    when it was given a default. *)
Theorem polling_ends_in_timeout (p : nat) (startTime : Z) (n : nat)
    (s : State) (tm : Timer) :
  waiting p startTime s →
  timers s = [tm] →
  (startTime + maxWaitMs this
   ≤ timer_due tm + Z.of_nat n * pollIntervalMs this)%Z →
  let s' := poll this g (S n) s in
  let timeout := LoadTimeoutError (maxWaitMs this) K in
  awaited (InFlight p) s' = Some (Throw timeout)
  ∧ config s' = None ∧ loadingPromise s' = None ∧ timers s' = []
  ∧ length (promises s') = length (promises s)
  ∧ (∀ key options w,
       get_resume this key options (Throw timeout) w s'
       = (Throw timeout, s')).
Proof.
  intros (Hc & Hp & Hpend & due & Ht) Htm Hbound. cbv zeta.
  rewrite Ht in Htm. injection Htm as <-. cbn [timer_due] in Hbound.
  destruct (poll_times_out p startTime n s due Hc Hpend Ht Hbound)
    as (Hrej & Hlen & Hc' & Hp' & Ht').
  cbn [awaited]. rewrite Hrej. by repeat split.
Qed.

End PollingEnds.

Lemma polling_ends_in_timeout_witness :
  let loader := ConfigLoader.new
                  {| ConfigLoader.opt_maxWaitMs := Some 100%Z;
                     ConfigLoader.opt_pollIntervalMs := Some 10%Z;
                     ConfigLoader.opt_configKey := None |} in
  let s := snd (ConfigLoader.loadConfig loader (world_without_slot 0)
                  ConfigLoader.initial) in
  ConfigLoader.awaited (ConfigLoader.InFlight 0) (poll loader ∅ 10 s)
  = Some (Throw (LoadTimeoutError 100 "ENV")).
Proof.
  cbv zeta.
  set (loader := ConfigLoader.new
                   {| ConfigLoader.opt_maxWaitMs := Some 100%Z;
                      ConfigLoader.opt_pollIntervalMs := Some 10%Z;
                      ConfigLoader.opt_configKey := None |}).
  assert (Hslot : default (FalsyValue FUndefined)
                    ((∅ : gmap string SlotValue)
                       !! ConfigLoader.configKey loader)
                  = FalsyValue FUndefined) by reflexivity.
  assert (Hpos : (0 < ConfigLoader.pollIntervalMs loader)%Z) by reflexivity.
  destruct (polling_ends_in_timeout loader ∅ FUndefined Hslot Hpos 0 0%Z 9
              (snd (ConfigLoader.loadConfig loader (world_without_slot 0)
                      ConfigLoader.initial))
              {| ConfigLoader.timer_promise := 0;
                 ConfigLoader.timer_start := 0;
                 ConfigLoader.timer_due := 10 |}) as (Hout & _).
  - repeat split; try reflexivity. by exists 10%Z.
  - reflexivity.
  - cbn. lia.
  - exact Hout.
Defined.

Section AcrossClasses.
Import ConfigLoader.
Variable this : ConfigLoader.t.
Variable accessor : Config.t.

Lemma get_resume_required (key : string) (d : option string)
    (c : ConfigObject) (w : World) (s : State) :
  fst (get_resume this key
         (Some {| required := Some true; defaultValue := d |})
         (Normal c) w s)
  = match prop c key with
    | Some v => if String.eqb v ""
                then Throw (RequiredMissingError key (configKey this))
                else Normal (Some v)
    | None => Throw (RequiredMissingError key (configKey this))
    end.
Proof.
  unfold get_resume, await. js_unfold. cbn.
  destruct (prop c key) as [v|]; cbn; [|done].
  destruct (String.eqb_spec v "") as [->|Hne]; cbn; [done|].
  rewrite bool_decide_eq_false_2; [done|congruence].
Qed.

Lemma get_resume_plain (key : string) (c : ConfigObject) (w : World)
    (s : State) :
  fst (get_resume this key None (Normal c) w s) = Normal (prop c key).
Proof.
  unfold get_resume, await. js_unfold. cbn.
  by destruct (prop c key).
Qed.

(** X13.  On the same configuration object the loader's [get] and the
    accessor agree as follows.  With [required: true], [get] returns [v]
    exactly when [getRequired] does, and fails on the key exactly when
    [getRequired] does.  Without options, [get] returns a non-empty [v]
    exactly when [getOptional] does; the two differ only on a key holding
    the empty string, which [get] returns and [getOptional] reports as
    [undefined]. *)
Theorem get_agrees_with_accessor (key : string) (d : option string)
    (c : ConfigObject) (w w' : World) (tr : list Event) (s : State) :
  slot_of w (Config.configKey accessor) = Some (ObjectValue c) →
  let req := fst (Config.getRequired accessor key w tr) in
  let opt := fst (Config.getOptional accessor key w tr) in
  let get_req :=
    fst (get_resume this key
           (Some {| required := Some true; defaultValue := d |})
           (Normal c) w' s) in
  let get_opt := fst (get_resume this key None (Normal c) w' s) in
  (∀ v, req = Normal v ↔ get_req = Normal (Some v))
  ∧ ((∃ e, req = Throw e ∧ error_kind e = MissingRequiredKey)
     ↔ (∃ e, get_req = Throw e ∧ error_kind e = MissingRequiredKey))
  ∧ (∀ v, opt = Normal (Some v) ↔ (get_opt = Normal (Some v) ∧ v ≠ ""))
  ∧ (opt = Normal None
     ↔ (get_opt = Normal None ∨ get_opt = Normal (Some ""))).
Proof.
  intros Hslot. cbv zeta.
  rewrite getRequired_cases, getOptional_cases, Hslot.
  rewrite get_resume_required, get_resume_plain. cbn [fst].
  destruct (prop c key) as [v0|]; cbn.
  - destruct (String.eqb_spec v0 "") as [->|Hne]; cbn.
    + split; [|split; [|split]].
      * intros v. split; discriminate.
      * split; intros _; eexists; split; reflexivity.
      * intros v. split; [discriminate|]. intros [[= <-] Hv]. done.
      * split; [by right|done].
    + split; [|split; [|split]].
      * intros v. split; congruence.
      * split; intros (e & He & _); discriminate.
      * intros v. split; [intros [= <-]; done|intros [Hv _]; done].
      * split; [discriminate|]. intros [Hv|Hv]; congruence.
  - split; [|split; [|split]].
    + intros v. split; discriminate.
    + split; intros _; eexists; split; reflexivity.
    + intros v. split; [discriminate|]. intros [Hv _]. discriminate.
    + split; [by left|done].
Qed.

End AcrossClasses.

Lemma get_agrees_with_accessor_witness :
  fst (Config.getRequired default_config "API_URL" (world_with_slot 0) [])
  = Normal "https://x"
  ∧ fst (ConfigLoader.get_resume default_loader "API_URL"
           (Some {| ConfigLoader.required := Some true;
                    ConfigLoader.defaultValue := None |})
           (Normal sample_env) (world_without_slot 3) ConfigLoader.initial)
    = Normal (Some "https://x").
Proof.
  assert (Hslot : slot_of (world_with_slot 0)
                    (Config.configKey default_config)
                  = Some (ObjectValue sample_env)) by reflexivity.
  destruct (get_agrees_with_accessor default_loader default_config "API_URL"
              None sample_env (world_with_slot 0) (world_without_slot 3) []
              ConfigLoader.initial Hslot) as (Hreq & _).
  assert (Hget : fst (Config.getRequired default_config "API_URL"
                        (world_with_slot 0) []) = Normal "https://x")
    by (vm_compute; reflexivity).
  split; [exact Hget|]. by apply Hreq.
Defined.

Lemma slot_present_loads_at_once_witness :
  let r := ConfigLoader.loadConfig impatient_loader (world_with_slot 0)
             ConfigLoader.initial in
  ConfigLoader.config (snd r) = Some sample_env
  ∧ ConfigLoader.timers (snd r) = [].
Proof.
  cbv zeta.
  destruct (slot_present_loads_at_once impatient_loader (world_with_slot 0)
              ConfigLoader.initial sample_env)
    as (_ & Hc & _ & Ht & _); try reflexivity.
  split; [exact Hc|exact Ht].
Defined.

Lemma no_window_rejects_at_once_witness :
  let r := ConfigLoader.loadConfig default_loader (world_without_window 0)
             ConfigLoader.initial in
  ConfigLoader.awaited (ConfigLoader.InFlight 0) (snd r)
  = Some (Throw ReferenceError)
  ∧ ConfigLoader.loadConfig default_loader (world_with_slot 5) (snd r)
    = (Normal (ConfigLoader.InFlight 0), snd r).
Proof.
  cbv zeta.
  destruct (no_window_rejects_at_once default_loader (world_without_window 0)
              ConfigLoader.initial)
    as (_ & Hout & _ & _ & _ & _ & Hlater); try reflexivity.
  split; [exact Hout|apply Hlater].
Defined.

Lemma reload_then_call_reads_slot_witness :
  let s := snd (ConfigLoader.loadConfig impatient_loader
                  (world_without_slot 0) ConfigLoader.initial) in
  let s1 := snd (ConfigLoader.reload (world_without_slot 1) s) in
  ConfigLoader.config
    (snd (ConfigLoader.loadConfig impatient_loader (world_with_slot 2) s1))
  = Some sample_env.
Proof.
  cbv zeta.
  destruct (reload_then_call_reads_slot impatient_loader
              (world_without_slot 1) (world_with_slot 2)
              (snd (ConfigLoader.loadConfig impatient_loader
                      (world_without_slot 0) ConfigLoader.initial))
              sample_env)
    as (_ & Hc); [reflexivity|].
  exact Hc.
Defined.

Lemma loaded_state_is_stable_witness :
  let s := snd (ConfigLoader.loadConfig default_loader (world_with_slot 0)
                  ConfigLoader.initial) in
  run default_loader
    [(Fire 0, world_without_slot 50); (Call, world_without_window 60);
     (Fire 1, world_with_slot 70)] s
  = ([ConfigLoader.Cached sample_env], s).
Proof.
  cbv zeta.
  apply (loaded_state_is_stable default_loader sample_env
           (snd (ConfigLoader.loadConfig default_loader (world_with_slot 0)
                   ConfigLoader.initial))
           [(Fire 0, world_without_slot 50); (Call, world_without_window 60);
            (Fire 1, world_with_slot 70)]); reflexivity.
Defined.

(** C3 as stated fails.  A first call at 0 ms starts a wait (check
    queued for 50 ms); [reload()] at 10 ms and a second call start a new
    cycle (check queued for 60 ms).  The slot is set to one object and at
    50 ms the first check caches it: the cache is populated and no
    [reload()] follows.  The slot is then set to another object, and at
    60 ms the second check stores that one.  The calls at 55 ms and at
    65 ms are handed different objects. *)
Lemma stale_check_replaces_cache :
  let s1 := snd (ConfigLoader.loadConfig default_loader
                   (world_without_slot 0) ConfigLoader.initial) in
  let s2 := snd (ConfigLoader.reload (world_without_slot 10) s1) in
  let s3 := snd (ConfigLoader.loadConfig default_loader
                   (world_without_slot 10) s2) in
  let s4 := ConfigLoader.fire default_loader 0 (world_with_slot 50) s3 in
  let later := run default_loader
                 [(Call, world_with_slot 55);
                  (Fire 0, world_with_other_slot 60);
                  (Call, world_with_other_slot 65)] s4 in
  ConfigLoader.config s4 = Some sample_env
  ∧ fst later
    = [ConfigLoader.Cached sample_env; ConfigLoader.Cached other_env]
  ∧ ConfigLoader.config (snd later) = Some other_env
  ∧ obj_id sample_env = 1 ∧ obj_id other_env = 2.
Proof. cbv zeta. repeat split; vm_compute; reflexivity. Qed.

(** C4 as stated fails.  With [maxWaitMs = 100] and [pollIntervalMs =
    60], a call at 0 ms starts a wait whose check re-arms itself at 60 ms
    for 120 ms; [reload()] at 70 ms leaves the instance idle with that
    check queued.  A call at 70 ms starts a new cycle (promise 1).  At
    120 ms the old check times out and clears [loadingPromise]; the call
    at 121 ms, made while promise 1 is pending and the slot still absent,
    creates promise 2 and a second poll loop. *)
Lemma stale_timeout_splits_callers :
  let s1 := snd (ConfigLoader.loadConfig slow_loader
                   (world_without_slot 0) ConfigLoader.initial) in
  let s2 := ConfigLoader.fire slow_loader 0 (world_without_slot 60) s1 in
  let s3 := snd (ConfigLoader.reload (world_without_slot 70) s2) in
  let r4 := ConfigLoader.loadConfig slow_loader (world_without_slot 70) s3 in
  let s5 := ConfigLoader.fire slow_loader 0 (world_without_slot 120)
              (snd r4) in
  let r6 := ConfigLoader.loadConfig slow_loader (world_without_slot 121)
              s5 in
  (ConfigLoader.config s3 = None ∧ ConfigLoader.loadingPromise s3 = None)
  ∧ fst r4 = Normal (ConfigLoader.InFlight 1)
  ∧ fst r6 = Normal (ConfigLoader.InFlight 2)
  ∧ ConfigLoader.promises (snd r6)
    = [ConfigLoader.Rejected (LoadTimeoutError 100 "ENV");
       ConfigLoader.Pending; ConfigLoader.Pending]
  ∧ ConfigLoader.timers (snd r6)
    = [ {| ConfigLoader.timer_promise := 1; ConfigLoader.timer_start := 70;
           ConfigLoader.timer_due := 130 |};
        {| ConfigLoader.timer_promise := 2; ConfigLoader.timer_start := 121;
           ConfigLoader.timer_due := 181 |} ].
Proof. cbv zeta. repeat split; vm_compute; reflexivity. Qed.
